(** * TriviaGenius-AI: the live audio pipeline

    A shallow embedding of [services/audioUtils.ts] (the PCM16 codec and the
    base64 transcoding) and of the audio part of [components/LiveGame.tsx]
    (capture handler, playback scheduler, interruption handling, clean-up),
    with the properties the specification states about them.

    Conventions.
    - A [Uint8Array] is a view (buffer, byteOffset, length) on an
      [ArrayBuffer]; an [ArrayBuffer] is a [list byte].
    - A JavaScript string whose code units are all below 256 (a "binary
      string", and every base64 text) is a [string]; [window.btoa] and
      [window.atob] are modelled after the WHATWG definitions
      (forgiving-base64).
    - A JavaScript number is a rational or one of NaN, +Infinity, -Infinity
      ([float]).  Every product and quotient the codec computes on a
      [Float32Array] element is exact in double precision (a 24-bit
      significand times a 15-bit constant, or a 16-bit integer over a power
      of two), so the rational arithmetic below is the code's arithmetic.
    - Times of the output clock ([AudioContext.currentTime],
      [AudioBuffer.duration]) are rationals, compared with [==], where only
      comparisons and assignments matter; where the code adds them
      ([PlaybackDouble]) they are IEEE 754 doubles and the sum is rounded. *)

From Stdlib Require Import ZArith NArith QArith Qround Qabs Lia Lqa List Bool Ascii String.
From Stdlib.Strings Require Import Byte.
From Stdlib.Floats Require Import SpecFloat.
Import ListNotations.

Set Implicit Arguments.

(** ** window.btoa / window.atob *)

Module Base64.

Local Open Scope N_scope.

(** The base64 alphabet: value of a sextet to its character. *)
Definition b64_char (v : N) : ascii :=
  ascii_of_N
    (if v <? 26 then v + 65
     else if v <? 52 then v + 71
     else if v <? 62 then v - 4
     else if v =? 62 then 43 else 47).

(** The converse table; [None] for a code point outside the alphabet. *)
Definition b64_index (c : ascii) : option N :=
  let n := N_of_ascii c in
  if (65 <=? n) && (n <=? 90) then Some (n - 65)
  else if (97 <=? n) && (n <=? 122) then Some (n - 71)
  else if (48 <=? n) && (n <=? 57) then Some (n + 4)
  else if n =? 43 then Some 62
  else if n =? 47 then Some 63
  else None.

Definition pad : ascii := "="%char.

(** [btoa]: three bytes give four characters; a last group of one or two
    bytes is completed with zero bits and padded with '='. *)
Fixpoint btoa_chars (s : list ascii) : list ascii :=
  match s with
  | [] => []
  | [a] =>
      let n := N_of_ascii a * 65536 in
      [b64_char (n / 262144); b64_char ((n / 4096) mod 64); pad; pad]
  | [a; b] =>
      let n := N_of_ascii a * 65536 + N_of_ascii b * 256 in
      [b64_char (n / 262144); b64_char ((n / 4096) mod 64);
       b64_char ((n / 64) mod 64); pad]
  | a :: b :: c :: rest =>
      let n := N_of_ascii a * 65536 + N_of_ascii b * 256 + N_of_ascii c in
      b64_char (n / 262144) :: b64_char ((n / 4096) mod 64)
      :: b64_char ((n / 64) mod 64) :: b64_char (n mod 64)
      :: btoa_chars rest
  end.

Definition btoa (binary : string) : string :=
  string_of_list_ascii (btoa_chars (list_ascii_of_string binary)).

(** ASCII whitespace: TAB, LF, FF, CR, SPACE. *)
Definition is_ascii_whitespace (c : ascii) : bool :=
  let n := N_of_ascii c in
  (n =? 9) || (n =? 10) || (n =? 12) || (n =? 13) || (n =? 32).

(** Removes one or two '=' at the end of the text. *)
Fixpoint strip_padding (l : list ascii) : list ascii :=
  match l with
  | [] => []
  | c :: r =>
      if Ascii.eqb c pad
         && match r with
            | [] => true
            | [d] => Ascii.eqb d pad
            | _ => false
            end
      then []
      else c :: strip_padding r
  end.

Fixpoint indices (l : list ascii) : option (list N) :=
  match l with
  | [] => Some []
  | c :: r =>
      match b64_index c, indices r with
      | Some v, Some vs => Some (v :: vs)
      | _, _ => None
      end
  end.

(** Four sextets give three bytes; a last group of two sextets gives one
    byte (the last four bits are dropped), of three sextets two bytes (the
    last two bits are dropped). *)
Fixpoint decode_sextets (l : list N) : list ascii :=
  match l with
  | a :: b :: c :: d :: rest =>
      let n := ((a * 64 + b) * 64 + c) * 64 + d in
      ascii_of_N (n / 65536) :: ascii_of_N ((n / 256) mod 256)
      :: ascii_of_N (n mod 256) :: decode_sextets rest
  | [a; b; c] =>
      let n := ((a * 64 + b) * 64 + c) / 4 in
      [ascii_of_N (n / 256); ascii_of_N (n mod 256)]
  | [a; b] =>
      let n := (a * 64 + b) / 16 in
      [ascii_of_N n]
  | _ => []
  end.

(** [atob]: [None] stands for the InvalidCharacterError it throws. *)
Definition atob_chars (data : list ascii) : option (list ascii) :=
  let data := filter (fun c => negb (is_ascii_whitespace c)) data in
  let data :=
    if N.of_nat (List.length data) mod 4 =? 0 then strip_padding data else data in
  if N.of_nat (List.length data) mod 4 =? 1 then None
  else option_map decode_sextets (indices data).

Definition atob (base64 : string) : option string :=
  option_map string_of_list_ascii (atob_chars (list_ascii_of_string base64)).

(** For the proofs: the sextets [btoa] writes, before they become
    characters, and the padding that follows them. *)
Fixpoint sextets (s : list ascii) : list N :=
  match s with
  | [] => []
  | [a] =>
      let n := N_of_ascii a * 65536 in
      [n / 262144; (n / 4096) mod 64]
  | [a; b] =>
      let n := N_of_ascii a * 65536 + N_of_ascii b * 256 in
      [n / 262144; (n / 4096) mod 64; (n / 64) mod 64]
  | a :: b :: c :: rest =>
      let n := N_of_ascii a * 65536 + N_of_ascii b * 256 + N_of_ascii c in
      n / 262144 :: (n / 4096) mod 64 :: (n / 64) mod 64 :: n mod 64 :: sextets rest
  end.

Definition padding (s : list ascii) : list ascii :=
  match (List.length s mod 3)%nat with
  | 1%nat => [pad; pad]
  | 2%nat => [pad]
  | _ => []
  end.

End Base64.

(** ** services/audioUtils.ts *)

Module AudioUtils.

Definition ArrayBuffer := list byte.

(** A typed-array view: [new Uint8Array(buffer, byteOffset, length)]. *)
Record Uint8Array := mkUint8Array {
  buffer : ArrayBuffer;
  byteOffset : nat;
  byteLength : nat
}.

(** [new Uint8Array(buffer)]: the view of the whole buffer. *)
Definition new_Uint8Array (b : ArrayBuffer) : Uint8Array :=
  {| buffer := b; byteOffset := 0; byteLength := List.length b |}.

(** The bytes the view shows. *)
Definition elements (u : Uint8Array) : list byte :=
  firstn (byteLength u) (skipn (byteOffset u) (buffer u)).

(** [base64ToArrayBuffer]: [atob], then [bytes[i] = binaryString.charCodeAt(i)]
    for every index; [None] when [atob] throws. *)
Definition base64ToArrayBuffer (base64 : string) : option ArrayBuffer :=
  match Base64.atob base64 with
  | Some binaryString => Some (map byte_of_ascii (list_ascii_of_string binaryString))
  | None => None
  end.

(** [arrayBufferToBase64]: [binary += String.fromCharCode(bytes[i])] for
    every index of [new Uint8Array(buffer)], then [btoa]. *)
Definition arrayBufferToBase64 (buffer : ArrayBuffer) : string :=
  let bytes := new_Uint8Array buffer in
  let binary := string_of_list_ascii (map ascii_of_byte (elements bytes)) in
  Base64.btoa binary.

(** *** JavaScript numbers *)

Inductive float :=
| Fin (q : Q)
| PInf
| NInf
| NaN.

(** The comparison [a < b]; false as soon as one side is NaN. *)
Definition float_lt (a b : float) : bool :=
  match a, b with
  | NaN, _ | _, NaN => false
  | Fin x, Fin y => if Qlt_le_dec x y then true else false
  | NInf, NInf => false
  | NInf, _ => true
  | _, NInf => false
  | PInf, _ => false
  | Fin _, PInf => true
  end.

Definition Math_min (a b : float) : float :=
  match a, b with
  | NaN, _ | _, NaN => NaN
  | _, _ => if float_lt b a then b else a
  end.

Definition Math_max (a b : float) : float :=
  match a, b with
  | NaN, _ | _, NaN => NaN
  | _, _ => if float_lt a b then b else a
  end.

(** The sign of a rational: -1, 0 or 1. *)
Definition Qsgn (q : Q) : Z := Z.sgn (Qnum q).

Definition float_mul (a b : float) : float :=
  let inf (s : Z) := if (s =? 0)%Z then NaN else if (0 <? s)%Z then PInf else NInf in
  match a, b with
  | NaN, _ | _, NaN => NaN
  | Fin x, Fin y => Fin (x * y)
  | Fin x, PInf | PInf, Fin x => inf (Qsgn x)
  | Fin x, NInf | NInf, Fin x => inf (- Qsgn x)%Z
  | PInf, PInf | NInf, NInf => PInf
  | PInf, NInf | NInf, PInf => NInf
  end.

(** Truncation towards zero. *)
Definition Qtrunc (q : Q) : Z := Z.quot (Qnum q) (Zpos (Qden q)).

(** The conversion applied when a number is stored in an [Int16Array]:
    NaN and the infinities give 0, a finite number is truncated and reduced
    modulo 2^16 into [-32768, 32767]. *)
Definition ToInt16 (x : float) : Z :=
  match x with
  | Fin q =>
      let u := (Qtrunc q mod 65536)%Z in
      if (u <? 32768)%Z then u else (u - 65536)%Z
  | _ => 0%Z
  end.

(** *** Int16Array and its bytes (little-endian) *)

Definition u8 (z : Z) : byte :=
  byte_of_ascii (ascii_of_N (Z.to_N (z mod 256))).

Definition Z_of_byte (b : byte) : Z := Z.of_N (Byte.to_N b).

(** The two bytes of an element of an [Int16Array]. *)
Definition int16_bytes (v : Z) : list byte :=
  [u8 (v mod 256); u8 ((v / 256) mod 256)].

(** [int16.buffer] *)
Definition Int16Array_buffer (int16 : list Z) : ArrayBuffer :=
  flat_map int16_bytes int16.

Definition int16_of_bytes (lo hi : byte) : Z :=
  let u := (Z_of_byte lo + 256 * Z_of_byte hi)%Z in
  if (u <? 32768)%Z then u else (u - 65536)%Z.

Fixpoint int16_elements (b : list byte) : list Z :=
  match b with
  | lo :: hi :: rest => int16_of_bytes lo hi :: int16_elements rest
  | _ => []
  end.

(** [new Int16Array(buffer)]: a RangeError ([None]) when the byte length of
    the buffer is not a multiple of 2. *)
Definition new_Int16Array (b : ArrayBuffer) : option (list Z) :=
  if Nat.even (List.length b) then Some (int16_elements b) else None.

(** *** AudioBuffer *)

Record AudioBuffer := mkAudioBuffer {
  sampleRate : positive;
  channelData : list float
}.

Definition duration (b : AudioBuffer) : Q :=
  Z.of_nat (List.length (channelData b)) # sampleRate b.

(** The sample rates every implementation of the Web Audio API accepts
    (8000 Hz to 96000 Hz).  What happens outside this range depends on the
    implementation; such a rate is treated as refused. *)
Definition supported_sample_rate (r : positive) : bool :=
  ((8000 <=? r) && (r <=? 96000))%positive.

(** [ctx.createBuffer(1, length, sampleRate)]: a buffer of silence; a
    NotSupportedError ([None]) when the length is zero or the rate is not
    supported. *)
Definition createBuffer (len : nat) (rate : positive) : option AudioBuffer :=
  if (len =? 0)%nat then None
  else if supported_sample_rate rate
       then Some {| sampleRate := rate; channelData := repeat (Fin 0) len |}
       else None.

(** [decodeAudioData(data, sampleRate)].  The [Int16Array] is built on
    [data.buffer], the whole buffer under the view.  [None] stands for the
    rejected promise.  At a supported rate the platform is taken to grant
    the [AudioContext] the function asks for. *)
Definition decodeAudioData (data : Uint8Array) (rate : positive) : option AudioBuffer :=
  if negb (supported_sample_rate rate) then None   (* new AudioContext({ sampleRate }) *)
  else
    match new_Int16Array (buffer data) with
    | None => None
    | Some dataInt16 =>
        let frameCount := List.length dataInt16 in
        match createBuffer frameCount rate with
        | None => None
        | Some buffer =>
            Some {| sampleRate := sampleRate buffer;
                    channelData :=
                      map (fun v => Fin (inject_Z v / 32768)) dataInt16 |}
        end
    end.

(** [createPCM16Blob(float32Data)] *)
Record PCM16Blob := mkPCM16Blob {
  blob : ArrayBuffer;
  base64 : string
}.

Definition pcm16_sample (x : float) : Z :=
  let s := Math_max (Fin (-1)) (Math_min (Fin 1) x) in
  ToInt16 (if float_lt s (Fin 0)
           then float_mul s (Fin 32768)     (* 0x8000 *)
           else float_mul s (Fin 32767)).   (* 0x7FFF *)

Definition createPCM16Blob (float32Data : list float) : PCM16Blob :=
  let int16 := map pcm16_sample float32Data in
  let uint8 := new_Uint8Array (Int16Array_buffer int16) in
  {| blob := Int16Array_buffer int16;
     base64 := arrayBufferToBase64 (buffer uint8) |}.

(** What the application does with a received fragment, applied to the
    frame [createPCM16Blob] makes: the text is turned into bytes again and
    decoded at [rate]. *)
Definition pcm16_round_trip (float32Data : list float) (rate : positive)
  : option AudioBuffer :=
  match base64ToArrayBuffer (base64 (createPCM16Blob float32Data)) with
  | Some arrayBuffer => decodeAudioData (new_Uint8Array arrayBuffer) rate
  | None => None
  end.

(** *** The encoding in the words of the specification

    Clamp the sample to [-1, 1], scale a negative value by 32768 and a
    non-negative value by 32767, truncate to an integer. *)
Definition clamp (q : Q) : Q :=
  if Qlt_le_dec q (-1) then -1 else if Qlt_le_dec 1 q then 1 else q.

Definition encodeToPCM16_sample (q : Q) : Z :=
  let s := clamp q in
  Qtrunc (if Qlt_le_dec s 0 then s * 32768 else s * 32767).

End AudioUtils.

(** ** components/LiveGame.tsx *)

Module LiveGame.

Import AudioUtils.

(** *** Playback: the [onmessage] callback *)

Module Playback.

(** What [onmessage] reads of a [LiveServerMessage]:
    [serverContent?.modelTurn?.parts?.[0]?.inlineData?.data] and
    [serverContent?.interrupted]. *)
Record LiveServerMessage := mkMessage {
  data : option string;
  interrupted : bool
}.

(** The references the callback uses.  [outputReady] tells whether
    [outputContextRef.current] and [outputAnalyserRef.current] are both set;
    [sourcesRef] is the [Set] of source nodes in insertion order; [created]
    counts the nodes made by [createBufferSource], which names them. *)
Record Refs := mkRefs {
  outputReady : bool;
  nextStartTimeRef : Q;
  sourcesRef : list nat;
  created : nat
}.

(** What the callback does to the outside. *)
Inductive effect :=
| Start (source : nat) (audioBuffer : AudioBuffer) (when : Q)   (* source.start(when) *)
| Stop (source : nat)                                           (* s.stop() *)
| LogDecodingError                                              (* console.error(...) *)
| LogInterrupted.                                               (* console.log(...) *)

(** [Set.prototype.add] and [Set.prototype.delete]. *)
Definition Set_add (x : nat) (s : list nat) : list nat :=
  if existsb (Nat.eqb x) s then s else s ++ [x].

Definition Set_delete (x : nat) (s : list nat) : list nat :=
  filter (fun y => negb (Nat.eqb x y)) s.

(** A non-empty string is truthy. *)
Definition truthy (s : string) : bool :=
  match s with EmptyString => false | _ => true end.

(** [await decodeAudioData(new Uint8Array(base64ToArrayBuffer(base64Audio)), 24000)];
    [None] when [atob] throws or the promise is rejected. *)
Definition decode (base64Audio : string) : option AudioBuffer :=
  match base64ToArrayBuffer base64Audio with
  | None => None
  | Some arrayBuffer => decodeAudioData (new_Uint8Array arrayBuffer) 24000
  end.

(** The time scheduling of one decoded buffer: lines
    [const source = ctx.createBufferSource()] to
    [sourcesRef.current.add(source)]. *)
Definition schedule (currentTime : Q) (audioBuffer : AudioBuffer) (r : Refs)
  : Refs * list effect :=
  let source := created r in
  let nextStartTime :=
    if Qlt_le_dec (nextStartTimeRef r) currentTime then currentTime
    else nextStartTimeRef r in
  ({| outputReady := outputReady r;
      nextStartTimeRef := nextStartTime + duration audioBuffer;
      sourcesRef := Set_add source (sourcesRef r);
      created := S source |},
   [Start source audioBuffer nextStartTime]).

(** "Handle Audio Output" *)
Definition handle_audio (currentTime : Q) (msg : LiveServerMessage) (r : Refs)
  : Refs * list effect :=
  match data msg with
  | Some base64Audio =>
      if truthy base64Audio && outputReady r then
        match decode base64Audio with
        | Some audioBuffer => schedule currentTime audioBuffer r
        | None => (r, [LogDecodingError])
        end
      else (r, [])
  | None => (r, [])
  end.

(** "Handle Interruptions" *)
Definition handle_interruption (msg : LiveServerMessage) (r : Refs)
  : Refs * list effect :=
  if interrupted msg then
    ({| outputReady := outputReady r;
        nextStartTimeRef := 0;
        sourcesRef := [];
        created := created r |},
     LogInterrupted :: map Stop (sourcesRef r))
  else (r, []).

(** The callback: the audio of the message first, then its interruption
    flag.  [currentTime] is the reading of [ctx.currentTime].  The callback
    is an async function that waits once, for [decodeAudioData]; it is taken
    here as one step, run to its end before the next callback starts.  The
    callbacks that start while another one waits are in [Interleaving]
    below. *)
Definition onmessage (currentTime : Q) (msg : LiveServerMessage) (r : Refs)
  : Refs * list effect :=
  let (r1, e1) := handle_audio currentTime msg r in
  let (r2, e2) := handle_interruption msg r1 in
  (r2, e1 ++ e2).

(** [source.onended] *)
Definition onended (source : nat) (r : Refs) : Refs :=
  {| outputReady := outputReady r;
     nextStartTimeRef := nextStartTimeRef r;
     sourcesRef := Set_delete source (sourcesRef r);
     created := created r |}.

(** The callbacks the runtime invokes, one after the other. *)
Inductive event :=
| Message (currentTime : Q) (msg : LiveServerMessage)
| Ended (source : nat).

Definition step (ev : event) (r : Refs) : Refs * list effect :=
  match ev with
  | Message currentTime msg => onmessage currentTime msg r
  | Ended source => (onended source r, [])
  end.

Fixpoint run (evs : list event) (r : Refs) : Refs * list effect :=
  match evs with
  | [] => (r, [])
  | ev :: rest =>
      let (r1, e1) := step ev r in
      let (r2, e2) := run rest r1 in
      (r2, e1 ++ e2)
  end.

(** A message that carries audio and no interruption flag. *)
Definition fragment (base64Audio : string) : LiveServerMessage :=
  {| data := Some base64Audio; interrupted := false |}.

(** The start times in a trace. *)
Fixpoint starts (t : list effect) : list Q :=
  match t with
  | [] => []
  | Start _ _ when :: rest => when :: starts rest
  | _ :: rest => starts rest
  end.

(** The position of the first effect of a trace that satisfies [f]. *)
Fixpoint position (f : effect -> bool) (t : list effect) : option nat :=
  match t with
  | [] => None
  | e :: rest => if f e then Some O else option_map S (position f rest)
  end.

Definition is_start (e : effect) : bool :=
  match e with Start _ _ _ => true | _ => false end.

Definition is_interruption (e : effect) : bool :=
  match e with LogInterrupted => true | _ => false end.

(** *** Sample data *)

(** The references when the session starts. *)
Definition at_rest : Refs :=
  {| outputReady := true; nextStartTimeRef := 0; sourcesRef := []; created := 0 |}.

(** The buffer the text "AAA=" decodes to: one frame of silence. *)
Definition one_frame : AudioBuffer :=
  {| sampleRate := 24000; channelData := [Fin (0 # 32768)] |}.

(** A cursor left at 1 s with one source still registered. *)
Definition stalled : Refs :=
  {| outputReady := true; nextStartTimeRef := 1; sourcesRef := [7%nat]; created := 8 |}.

End Playback.

(** *** Promises, as far as the component uses them *)

Inductive Promise (A : Type) :=
| Pending
| Fulfilled (value : A)
| Rejected.

Arguments Pending {A}.
Arguments Fulfilled {A} value.
Arguments Rejected {A}.

(** *** Capture: [onaudioprocess] and [toggleMute] *)

Module Capture.

(** [isMuted] is the React state.  The effect that installs
    [processor.onaudioprocess] depends on [questions] and [personality]
    only, so the handler keeps the [isMuted] constant of the render in
    which that effect ran: [handler_isMuted].  [waiting] holds the frames of
    the callbacks registered with [then] on a pending session promise,
    [sent] the frames given to [session.sendRealtimeInput]. *)
Record Component := mkComponent {
  isMuted : bool;
  handler_isMuted : bool;
  sessionRef : option (Promise unit);
  waiting : list string;
  sent : list string
}.

(** The first render: [useState(false)], no session yet. *)
Definition initial : Component :=
  {| isMuted := false; handler_isMuted := false; sessionRef := None;
     waiting := []; sent := [] |}.

(** The effect runs (after the first render, and again when [questions] or
    [personality] change): the handler is created in the current render and
    [sessionRef.current] receives the promise of [ai.live.connect]. *)
Definition run_effect (c : Component) : Component :=
  {| isMuted := isMuted c; handler_isMuted := isMuted c;
     sessionRef := Some Pending; waiting := []; sent := sent c |}.

(** The session promise is fulfilled: the callbacks waiting on it run. *)
Definition session_opened (c : Component) : Component :=
  match sessionRef c with
  | Some Pending =>
      {| isMuted := isMuted c; handler_isMuted := handler_isMuted c;
         sessionRef := Some (Fulfilled tt); waiting := [];
         sent := sent c ++ waiting c |}
  | _ => c
  end.

(** [toggleMute]: [setIsMuted(!isMuted)]; the component renders again, the
    effect does not run again. *)
Definition toggleMute (c : Component) : Component :=
  {| isMuted := negb (isMuted c); handler_isMuted := handler_isMuted c;
     sessionRef := sessionRef c; waiting := waiting c; sent := sent c |}.

(** [processor.onaudioprocess] on one chunk of the microphone. *)
Definition onaudioprocess (inputData : list float) (c : Component) : Component :=
  if handler_isMuted c then c
  else
    let frame := base64 (createPCM16Blob inputData) in
    match sessionRef c with
    | Some Pending =>
        {| isMuted := isMuted c; handler_isMuted := handler_isMuted c;
           sessionRef := sessionRef c; waiting := waiting c ++ [frame];
           sent := sent c |}
    | Some (Fulfilled _) =>
        {| isMuted := isMuted c; handler_isMuted := handler_isMuted c;
           sessionRef := sessionRef c; waiting := waiting c;
           sent := sent c ++ [frame] |}
    | Some Rejected => c
    | None => c
    end.

Inductive event :=
| RunEffect
| SessionOpened
| ToggleMute
| AudioProcess (inputData : list float).

Definition step (ev : event) (c : Component) : Component :=
  match ev with
  | RunEffect => run_effect c
  | SessionOpened => session_opened c
  | ToggleMute => toggleMute c
  | AudioProcess inputData => onaudioprocess inputData c
  end.

Definition run (evs : list event) (c : Component) : Component :=
  fold_left (fun c ev => step ev c) evs c.

End Capture.

(** *** Clean-up: the function returned by the effect *)

Module Cleanup.

(** How a call of a method ends. *)
Inductive outcome := Returns | Throws.

(** The objects the clean-up works on, each with the behaviour of the
    method the clean-up calls.  A session may have no [close] property. *)
Record MediaStreamTrack := mkTrack { track : nat; stop : outcome }.
Record AudioContext := mkContext { close : outcome }.
Record Session := mkSession { session_close : option outcome }.

Inductive call :=
| TrackStop (track : nat)
| InputContextClose
| OutputContextClose
| SessionClose.

(** The references, the log of the calls made with their outcomes, and the
    callbacks given to [then]: [microtasks] are ready to run, [on_fulfilled]
    counts those waiting for the session promise. *)
Record World := mkWorld {
  isActive : bool;
  sessionRef : option (Promise Session);
  streamRef : option (list MediaStreamTrack);
  inputContextRef : option AudioContext;
  outputContextRef : option AudioContext;
  log : list (call * outcome);
  microtasks : list Session;
  on_fulfilled : nat
}.

(** Computations that change the world and may throw. *)
Inductive result (A : Type) :=
| Normal (value : A)
| Thrown.

Arguments Normal {A} value.
Arguments Thrown {A}.

Definition M (A : Type) : Type := World -> World * result A.

Definition ret {A} (a : A) : M A := fun w => (w, Normal a).

Definition bind {A B} (m : M A) (k : A -> M B) : M B :=
  fun w =>
    match m w with
    | (w1, Normal a) => k a w1
    | (w1, Thrown) => (w1, Thrown)
    end.

Notation "x <- m ;; k" := (bind m (fun x => k))
  (at level 61, m at next level, right associativity).
Notation "m ;; k" := (bind m (fun _ => k))
  (at level 61, right associativity).

Definition get {A} (f : World -> A) : M A := fun w => (w, Normal (f w)).

(** The world with more calls in its log. *)
Definition logged (entries : list (call * outcome)) (w : World) : World :=
  {| isActive := isActive w; sessionRef := sessionRef w;
     streamRef := streamRef w; inputContextRef := inputContextRef w;
     outputContextRef := outputContextRef w; log := log w ++ entries;
     microtasks := microtasks w; on_fulfilled := on_fulfilled w |}.

(** A method call: logged, and an exception if the method throws. *)
Definition invoke (c : call) (o : outcome) : M unit :=
  fun w =>
    match o with
    | Returns => (logged [(c, o)] w, Normal tt)
    | Throws => (logged [(c, o)] w, Thrown)
    end.

Definition set_isActive (b : bool) : M unit :=
  fun w =>
    ({| isActive := b; sessionRef := sessionRef w;
        streamRef := streamRef w; inputContextRef := inputContextRef w;
        outputContextRef := outputContextRef w; log := log w;
        microtasks := microtasks w; on_fulfilled := on_fulfilled w |}, Normal tt).

(** [promise.then(callback)] never throws: the callback is queued when the
    promise is fulfilled, kept when it is pending, dropped when it is
    rejected. *)
Definition then_close (p : Promise Session) : M unit :=
  fun w =>
    ({| isActive := isActive w; sessionRef := sessionRef w;
        streamRef := streamRef w; inputContextRef := inputContextRef w;
        outputContextRef := outputContextRef w; log := log w;
        microtasks :=
          match p with
          | Fulfilled s => microtasks w ++ [s]
          | _ => microtasks w
          end;
        on_fulfilled :=
          match p with
          | Pending => S (on_fulfilled w)
          | _ => on_fulfilled w
          end |}, Normal tt).

(** [array.forEach(f)]: stops at the first call that throws. *)
Fixpoint forEach {A} (l : list A) (f : A -> M unit) : M unit :=
  match l with
  | [] => ret tt
  | x :: rest => f x ;; forEach rest f
  end.

(** [o?.m()] *)
Definition optional {A} (o : option A) (f : A -> M unit) : M unit :=
  match o with
  | Some x => f x
  | None => ret tt
  end.

(** The clean-up function. *)
Definition cleanup : M unit :=
  set_isActive false ;;
  p <- get sessionRef ;;
  optional p then_close ;;
  s <- get streamRef ;;
  optional s (fun tracks => forEach tracks (fun t => invoke (TrackStop (track t)) (stop t))) ;;
  i <- get inputContextRef ;;
  optional i (fun ctx => invoke InputContextClose (close ctx)) ;;
  o <- get outputContextRef ;;
  optional o (fun ctx => invoke OutputContextClose (close ctx)).

(** The callback [(s) => s.close && s.close()] in its microtask: what it
    throws rejects the promise [then] returned and goes no further. *)
Definition close_callback (s : Session) : M unit :=
  fun w =>
    match session_close s with
    | Some o => (fst (invoke SessionClose o w), Normal tt)
    | None => (w, Normal tt)
    end.

Definition run_microtasks : M unit :=
  fun w =>
    let w1 :=
      {| isActive := isActive w; sessionRef := sessionRef w;
         streamRef := streamRef w; inputContextRef := inputContextRef w;
         outputContextRef := outputContextRef w; log := log w;
         microtasks := []; on_fulfilled := on_fulfilled w |} in
    forEach (microtasks w) close_callback w1.

(** A world in which only the session throws when it is closed. *)
Definition session_close_throws : World :=
  {| isActive := true;
     sessionRef := Some (Fulfilled {| session_close := Some Throws |});
     streamRef := Some [{| track := 0; stop := Returns |}; {| track := 1; stop := Returns |}];
     inputContextRef := Some {| close := Returns |};
     outputContextRef := Some {| close := Returns |};
     log := []; microtasks := []; on_fulfilled := 0 |}.

(** A call was made, and returned. *)
Definition called (c : call) (w : World) : Prop := In (c, Returns) (log w).

(** A call was made, whatever its outcome. *)
Definition attempted (c : call) (w : World) : Prop :=
  exists o, In (c, o) (log w).

(** No method of the capture device or of the audio contexts throws. *)
Definition devices_do_not_throw (w : World) : Prop :=
  (forall tracks, streamRef w = Some tracks -> Forall (fun t => stop t = Returns) tracks)
  /\ (forall ctx, inputContextRef w = Some ctx -> close ctx = Returns)
  /\ (forall ctx, outputContextRef w = Some ctx -> close ctx = Returns).

(** The calls the clean-up makes when no device throws. *)
Definition device_calls (w : World) : list (call * outcome) :=
  match streamRef w with
  | Some tracks => map (fun t => (TrackStop (track t), Returns)) tracks
  | None => []
  end
  ++ match inputContextRef w with Some _ => [(InputContextClose, Returns)] | None => [] end
  ++ match outputContextRef w with Some _ => [(OutputContextClose, Returns)] | None => [] end.

(** The calls of the [close] callbacks of a list of sessions. *)
Definition session_calls (sessions : list Session) : list (call * outcome) :=
  flat_map (fun s => match session_close s with
                     | Some o => [(SessionClose, o)]
                     | None => []
                     end) sessions.

End Cleanup.

(** *** Double precision: the numbers of the clock and of the cursor

    [ctx.currentTime], [audioBuffer.duration] and [nextStartTimeRef.current]
    are IEEE 754 binary64 numbers, and [+=] rounds to the nearest one. *)

Module Double.

Definition double : Set := spec_float.

Definition prec : Z := 53.
Definition emax : Z := 1024.

Definition add : double -> double -> double := SFadd prec emax.
Definition div : double -> double -> double := SFdiv prec emax.

(** [x < y] and [x <= y]; both are false when an operand is NaN. *)
Definition ltb : double -> double -> bool := SFltb.
Definition leb : double -> double -> bool := SFleb.

(** The double nearest to an integer. *)
Definition of_Z (z : Z) : double := binary_normalize prec emax z 0 false.

Definition zero : double := S754_zero false.

(** The rational a finite double stands for. *)
Definition to_Q (x : double) : Q :=
  match x with
  | S754_finite s m e =>
      let z := if s then Z.neg m else Z.pos m in
      if (0 <=? e)%Z then inject_Z (z * 2 ^ e)
      else z # (2 ^ Z.to_pos (- e))%positive
  | _ => 0
  end.

End Double.

(** *** Playback: the time scheduling on doubles *)

Module PlaybackDouble.

Import Double.

(** [audioBuffer.duration]: the length divided by the sample rate. *)
Definition duration (b : AudioBuffer) : double :=
  div (of_Z (Z.of_nat (List.length (channelData b)))) (of_Z (Z.pos (sampleRate b))).

Record Refs := mkRefs {
  nextStartTimeRef : double;
  sourcesRef : list nat;
  created : nat
}.

Inductive effect :=
| Start (source : nat) (audioBuffer : AudioBuffer) (when : double).

(** The time scheduling of one decoded buffer, as [Playback.schedule]. *)
Definition schedule (currentTime : double) (audioBuffer : AudioBuffer) (r : Refs)
  : Refs * list effect :=
  let source := created r in
  let nextStartTime :=
    if ltb (nextStartTimeRef r) currentTime then currentTime
    else nextStartTimeRef r in
  ({| nextStartTimeRef := add nextStartTime (duration audioBuffer);
      sourcesRef := Playback.Set_add source (sourcesRef r);
      created := S source |},
   [Start source audioBuffer nextStartTime]).

(** Buffers scheduled one after the other, each with the reading of the
    clock at its turn. *)
Fixpoint schedule_all (l : list (double * AudioBuffer)) (r : Refs) : Refs * list effect :=
  match l with
  | [] => (r, [])
  | (currentTime, audioBuffer) :: rest =>
      let (r1, e1) := schedule currentTime audioBuffer r in
      let (r2, e2) := schedule_all rest r1 in
      (r2, e1 ++ e2)
  end.

Definition starts (t : list effect) : list double :=
  map (fun e => match e with Start _ _ when => when end) t.

Definition durations (l : list (double * AudioBuffer)) : list double :=
  map (fun x => duration (snd x)) l.

(** The clock never exceeds the cursor when each buffer of [l] is
    scheduled. *)
Fixpoint never_behind (l : list (double * AudioBuffer)) (cursor : double) : Prop :=
  match l with
  | [] => True
  | (currentTime, audioBuffer) :: rest =>
      leb currentTime cursor = true
      /\ never_behind rest (add cursor (duration audioBuffer))
  end.

(** The successive values of the cursor: it starts at [c] and each duration
    is added to it in turn, with the rounding of [add]. *)
Fixpoint cursors (c : double) (ds : list double) : list double :=
  match ds with
  | [] => []
  | d :: rest => c :: cursors (add c d) rest
  end.

(** A buffer of silence. *)
Definition silence (frames : nat) : AudioBuffer :=
  {| sampleRate := 24000; channelData := repeat (Fin 0) frames |}.

Definition at_rest : Refs :=
  {| nextStartTimeRef := zero; sourcesRef := []; created := 0 |}.

(** Three fragments of 1 s, 0.5 s and 2 s at 24 kHz, scheduled when the
    clock reads 0, 0.25 s and 0.75 s. *)
Definition three_fragments : list (double * AudioBuffer) :=
  [(zero, silence (Z.to_nat 24000));
   (div (of_Z 1) (of_Z 4), silence (Z.to_nat 12000));
   (div (of_Z 3) (of_Z 4), silence (Z.to_nat 48000))].

(** Fragments of 1, 3 and 1 frames, all scheduled when the clock reads 0. *)
Definition short_fragments : list (double * AudioBuffer) :=
  [(zero, silence 1); (zero, silence 3); (zero, silence 1)].

End PlaybackDouble.

(** *** Playback: callbacks that start while another one waits

    [onmessage] is an async function.  Up to [await decodeAudioData(...)] it
    runs in the call itself; what follows the [await] runs later, in a
    microtask, and a call of [onmessage] for another message can come in
    between. *)

Module Interleaving.

Import Playback.

(** A call suspended at its [await]: the message, and what the promise of
    [decodeAudioData] holds ([None] when it is rejected). *)
Record Suspended := mkSuspended {
  message : LiveServerMessage;
  decoded : option AudioBuffer
}.

(** The references, the suspended calls in the order in which they will
    resume, and what has been done to the outside so far. *)
Record System := mkSystem {
  refs : Refs;
  awaiting : list Suspended;
  trace : list effect
}.

(** The end of a call: "Handle Interruptions". *)
Definition finish (msg : LiveServerMessage) (r : Refs) (done : list effect)
  (s : System) : System :=
  let (r2, e2) := handle_interruption msg r in
  {| refs := r2; awaiting := awaiting s; trace := trace s ++ done ++ e2 |}.

(** A call of [onmessage], up to its [await].  When the message has no
    audio, or the output is not ready, the call runs to its end.  When
    [base64ToArrayBuffer] throws, the [catch] runs at once and the call runs
    to its end as well.  Otherwise the call is suspended. *)
Definition arrive (msg : LiveServerMessage) (s : System) : System :=
  match data msg with
  | Some base64Audio =>
      if truthy base64Audio && outputReady (refs s) then
        match base64ToArrayBuffer base64Audio with
        | Some arrayBuffer =>
            {| refs := refs s;
               awaiting :=
                 awaiting s
                 ++ [{| message := msg;
                        decoded := decodeAudioData (new_Uint8Array arrayBuffer) 24000 |}];
               trace := trace s |}
        | None => finish msg (refs s) [LogDecodingError] s
        end
      else finish msg (refs s) [] s
  | None => finish msg (refs s) [] s
  end.

(** The oldest suspended call resumes: the lines after the [await], or the
    [catch], and then "Handle Interruptions". *)
Definition resume (currentTime : Q) (s : System) : System :=
  match awaiting s with
  | [] => s
  | k :: rest =>
      let (r1, e1) :=
        match decoded k with
        | Some audioBuffer => schedule currentTime audioBuffer (refs s)
        | None => (refs s, [LogDecodingError])
        end in
      finish (message k) r1 e1
        {| refs := refs s; awaiting := rest; trace := trace s |}
  end.

Inductive event :=
| Arrive (msg : LiveServerMessage)
| Resume (currentTime : Q)
| SourceEnded (source : nat).

Definition step (s : System) (ev : event) : System :=
  match ev with
  | Arrive msg => arrive msg s
  | Resume currentTime => resume currentTime s
  | SourceEnded source =>
      {| refs := onended source (refs s); awaiting := awaiting s; trace := trace s |}
  end.

Definition run (evs : list event) (s : System) : System :=
  fold_left step evs s.

(** No call is suspended and nothing has been done yet. *)
Definition idle (r : Refs) : System :=
  {| refs := r; awaiting := []; trace := [] |}.



End Interleaving.

(** *** Start-up: [startSession] and the clean-up that runs during it *)

Module Startup.

Import Cleanup.

(** The world of the clean-up, whether [startSession] is waiting for
    [getUserMedia], and whether its [catch] has run. *)
Record Component := mkComponent {
  world : World;
  awaiting_stream : bool;
  setup_failed : bool
}.

(** The references of a component that has just been mounted. *)
Definition mounted : World :=
  {| isActive := true; sessionRef := None; streamRef := None;
     inputContextRef := None; outputContextRef := None;
     log := []; microtasks := []; on_fulfilled := 0 |}.

(** [startSession] up to [await navigator.mediaDevices.getUserMedia(...)]:
    without an API key it throws at once; otherwise the two contexts are
    created.  [close()] of a context returns a promise and does not
    throw. *)
Definition startSession (apiKey : bool) (w : World) : Component :=
  if apiKey then
    {| world :=
         {| isActive := true; sessionRef := sessionRef w; streamRef := streamRef w;
            inputContextRef := Some {| close := Returns |};
            outputContextRef := Some {| close := Returns |};
            log := log w; microtasks := microtasks w;
            on_fulfilled := on_fulfilled w |};
       awaiting_stream := true; setup_failed := false |}
  else {| world := w; awaiting_stream := false; setup_failed := true |}.

(** [close()] has been called on the input context. *)
Definition input_closed (w : World) : bool :=
  existsb (fun c => match fst c with InputContextClose => true | _ => false end)
          (log w).

Definition set_streamRef (tracks : list MediaStreamTrack) (w : World) : World :=
  {| isActive := isActive w; sessionRef := sessionRef w; streamRef := Some tracks;
     inputContextRef := inputContextRef w; outputContextRef := outputContextRef w;
     log := log w; microtasks := microtasks w; on_fulfilled := on_fulfilled w |}.

Definition set_sessionRef (p : Promise Session) (w : World) : World :=
  {| isActive := isActive w; sessionRef := Some p; streamRef := streamRef w;
     inputContextRef := inputContextRef w; outputContextRef := outputContextRef w;
     log := log w; microtasks := microtasks w; on_fulfilled := on_fulfilled w |}.

(** [getUserMedia] is granted: the stream is stored, the capture graph is
    built on the input context and the connection is opened, its promise
    stored.  [closed_context_throws] tells whether the browser refuses to
    build the graph on a context that has been closed; then the [catch]
    runs and no connection is opened. *)
Definition stream_granted (closed_context_throws : bool)
  (tracks : list MediaStreamTrack) (c : Component) : Component :=
  if awaiting_stream c then
    let w := set_streamRef tracks (world c) in
    if closed_context_throws && input_closed w
    then {| world := w; awaiting_stream := false; setup_failed := true |}
    else {| world := set_sessionRef Pending w;
            awaiting_stream := false; setup_failed := false |}
  else c.

(** [getUserMedia] is refused: the [catch] runs. *)
Definition stream_denied (c : Component) : Component :=
  if awaiting_stream c
  then {| world := world c; awaiting_stream := false; setup_failed := true |}
  else c.

(** The connection is established: the promise is fulfilled and the
    callbacks that waited for it run. *)
Definition session_fulfilled (s : Session) (c : Component) : Component :=
  match sessionRef (world c) with
  | Some Pending =>
      let w := world c in
      {| world :=
           fst (run_microtasks
                  {| isActive := isActive w; sessionRef := Some (Fulfilled s);
                     streamRef := streamRef w;
                     inputContextRef := inputContextRef w;
                     outputContextRef := outputContextRef w; log := log w;
                     microtasks := microtasks w ++ repeat s (on_fulfilled w);
                     on_fulfilled := 0 |});
         awaiting_stream := awaiting_stream c; setup_failed := setup_failed c |}
  | _ => c
  end.

(** The component is unmounted: the clean-up runs, then the microtasks. *)
Definition unmount (c : Component) : Component :=
  {| world := fst (run_microtasks (fst (cleanup (world c))));
     awaiting_stream := awaiting_stream c; setup_failed := setup_failed c |}.

Inductive event :=
| Unmount
| StreamGranted (closed_context_throws : bool) (tracks : list MediaStreamTrack)
| StreamDenied
| SessionFulfilled (s : Session).

Definition step (c : Component) (ev : event) : Component :=
  match ev with
  | Unmount => unmount c
  | StreamGranted closed_context_throws tracks =>
      stream_granted closed_context_throws tracks c
  | StreamDenied => stream_denied c
  | SessionFulfilled s => session_fulfilled s c
  end.

Definition run (evs : list event) (c : Component) : Component :=
  fold_left step evs c.

Definition is_unmount (ev : event) : bool :=
  match ev with Unmount => true | _ => false end.

(** A call that releases the microphone or closes the connection. *)
Definition releases (c : call) : bool :=
  match c with
  | TrackStop _ | SessionClose => true
  | _ => false
  end.

End Startup.

End LiveGame.

(** ** Further notions for the codec *)

Module Codec.

Import AudioUtils.

(** A character a base64 text is made of: one of the alphabet, or '='. *)
Definition is_base64_char (c : ascii) : bool :=
  match Base64.b64_index c with
  | Some _ => true
  | None => Ascii.eqb c Base64.pad
  end.

(** What becomes of a 16-bit value that is decoded and encoded again. *)
Definition reencoded (v : Z) : Z := if (0 <? v)%Z then (v - 1)%Z else v.

End Codec.

(** ** Further notions for the playback *)

Module Scheduling.

Import AudioUtils LiveGame.Playback.

(** An event that does not signal an interruption. *)
Definition without_interruption (ev : event) : bool :=
  match ev with
  | Message _ msg => negb (interrupted msg)
  | Ended _ => true
  end.

End Scheduling.

(** ** Further notions for the capture *)

Module Muting.

Import LiveGame.Capture.

(** An event other than a new run of the effect. *)
Definition keeps_handler (ev : event) : bool :=
  match ev with
  | RunEffect => false
  | _ => true
  end.

End Muting.

(** ** components/LiveGame.tsx: the status of the session *)

Module Status.

(** [useState<'connecting' | 'active' | 'error' | 'closed'>('connecting')] *)
Inductive status := connecting | active | error | closed.

(** The state [status] and the variable [isActive] of the effect. *)
Record Session := mkSession {
  current : status;
  isActive : bool
}.

(** The first render; the effect sets [isActive] to true. *)
Definition initial : Session := {| current := connecting; isActive := true |}.

Definition setStatus (s : status) (x : Session) : Session :=
  {| current := s; isActive := isActive x |}.

(** [onopen], [onclose] and [onerror] of [ai.live.connect]. *)
Definition onopen (x : Session) : Session :=
  if isActive x then setStatus active x else x.

Definition onclose (x : Session) : Session :=
  if isActive x then setStatus closed x else x.

Definition onerror (x : Session) : Session :=
  if isActive x then setStatus error x else x.

(** The [catch] of [startSession]: "Setup failed". *)
Definition setup_failed (x : Session) : Session := setStatus error x.

(** The clean-up: [isActive = false]. *)
Definition cleanup (x : Session) : Session :=
  {| current := current x; isActive := false |}.

Inductive event := Open | Close | Error | SetupFailed | Cleanup.

Definition step (ev : event) (x : Session) : Session :=
  match ev with
  | Open => onopen x
  | Close => onclose x
  | Error => onerror x
  | SetupFailed => setup_failed x
  | Cleanup => cleanup x
  end.

Definition run (evs : list event) (x : Session) : Session :=
  fold_left (fun x ev => step ev x) evs x.

(** A callback of the connection. *)
Definition is_callback (ev : event) : bool :=
  match ev with
  | Open | Close | Error => true
  | _ => false
  end.

Definition is_cleanup (ev : event) : bool :=
  match ev with
  | Cleanup => true
  | _ => false
  end.

(** The status an event asks for. *)
Definition status_of (ev : event) (otherwise : status) : status :=
  match ev with
  | Open => active
  | Close => closed
  | Error | SetupFailed => error
  | Cleanup => otherwise
  end.

End Status.

(** ** components/StandardGame.tsx *)

Module StandardGame.

Local Open Scope string_scope.

Record TriviaQuestion := mkQuestion {
  question : string;
  options : list string;
  correctAnswer : string;
  explanation : string
}.

(** The state of the component, the texts given to [playAudio] and the
    scores given to [onComplete].  [isPlayingAudio], which only disables
    the replay button while a sound plays, is left out. *)
Record Game := mkGame {
  currentIndex : nat;
  selectedOption : option string;
  isAnswered : bool;
  score : nat;
  feedback : string;
  spoken : list string;
  completed : list nat
}.

Definition currentQuestion (questions : list TriviaQuestion) (g : Game)
  : option TriviaQuestion :=
  nth_error questions (currentIndex g).

Definition playAudio (text : string) (g : Game) : Game :=
  {| currentIndex := currentIndex g; selectedOption := selectedOption g;
     isAnswered := isAnswered g; score := score g; feedback := feedback g;
     spoken := spoken g ++ [text]; completed := completed g |}.

(** [playQuestionAudio] *)
Definition playQuestionAudio (questions : list TriviaQuestion) (g : Game) : Game :=
  match currentQuestion questions g with
  | None => g
  | Some q =>
      playAudio (question q ++ " Is it... " ++ String.concat ", or " (options q) ++ "?") g
  end.

(** The first render and its effect. *)
Definition mount (questions : list TriviaQuestion) : Game :=
  playQuestionAudio questions
    {| currentIndex := 0; selectedOption := None; isAnswered := false; score := 0;
       feedback := EmptyString; spoken := []; completed := [] |}.

(** [option === correctAnswer || (option.length === 1 &&
    correctAnswer.startsWith(option))] *)
Definition isCorrect (q : TriviaQuestion) (choice : string) : bool :=
  String.eqb choice (correctAnswer q)
  || ((String.length choice =? 1)%nat && String.prefix choice (correctAnswer q)).

(** [handleOptionSelect], where [choice] is the parameter [option]; [None]
    is the TypeError of reading a question that is not there. *)
Definition handleOptionSelect (questions : list TriviaQuestion) (choice : string)
  (g : Game) : option Game :=
  if isAnswered g then Some g
  else
    match currentQuestion questions g with
    | None => None
    | Some q =>
        if isCorrect q choice then
          Some (playAudio ("That is correct! " ++ explanation q)
                  {| currentIndex := currentIndex g; selectedOption := Some choice;
                     isAnswered := true; score := score g + 1; feedback := "Correct!";
                     spoken := spoken g; completed := completed g |})
        else
          Some (playAudio ("Sorry, that's wrong. The answer is " ++ correctAnswer q
                           ++ ". " ++ explanation q)
                  {| currentIndex := currentIndex g; selectedOption := Some choice;
                     isAnswered := true; score := score g; feedback := "Incorrect.";
                     spoken := spoken g; completed := completed g |})
    end.

(** [handleNext], with the effect on [currentIndex] that reads the next
    question aloud. *)
Definition handleNext (questions : list TriviaQuestion) (g : Game) : Game :=
  if (S (currentIndex g) <? List.length questions)%nat then
    playQuestionAudio questions
      {| currentIndex := currentIndex g + 1; selectedOption := None;
         isAnswered := false; score := score g; feedback := EmptyString;
         spoken := spoken g; completed := completed g |}
  else
    {| currentIndex := currentIndex g; selectedOption := selectedOption g;
       isAnswered := isAnswered g; score := score g; feedback := feedback g;
       spoken := spoken g; completed := completed g ++ [score g] |}.

(** The clicks: on an option, and on the button "Next Question" or "Finish
    Game", which is rendered only once the question is answered. *)
Inductive event :=
| Select (choice : string)
| Next.

Definition step (questions : list TriviaQuestion) (ev : event) (g : Game)
  : option Game :=
  match ev with
  | Select choice => handleOptionSelect questions choice g
  | Next => if isAnswered g then Some (handleNext questions g) else Some g
  end.

Fixpoint run (questions : list TriviaQuestion) (evs : list event) (g : Game)
  : option Game :=
  match evs with
  | [] => Some g
  | ev :: rest =>
      match step questions ev g with
      | Some g1 => run questions rest g1
      | None => None
      end
  end.

(** The colour of the button of an option. *)
Inductive colour := Green | Red | Dimmed | Idle.

Definition btnClass (q : TriviaQuestion) (g : Game) (choice : string) : colour :=
  if isAnswered g then
    if String.eqb choice (correctAnswer q) then Green
    else if match selectedOption g with
            | Some s => String.eqb s choice
            | None => false
            end
         then Red
         else Dimmed
  else Idle.

(** What the states the game goes through satisfy. *)
Definition well_formed (questions : list TriviaQuestion) (g : Game) : Prop :=
  (currentIndex g < List.length questions)%nat
  /\ (score g <= currentIndex g + (if isAnswered g then 1 else 0))%nat
  /\ Forall (fun s => (s <= List.length questions)%nat) (completed g).

(** The number of choices that are correct, question by question. *)
Definition correct_choices (questions : list TriviaQuestion) (choices : list string)
  : nat :=
  List.length (filter (fun x => isCorrect (fst x) (snd x)) (combine questions choices)).

(** Answering each question in turn and moving on. *)
Definition play_through (choices : list string) : list event :=
  flat_map (fun choice => [Select choice; Next]) choices.

End StandardGame.

(** ** JavaScript strings as sequences of UTF-16 code units *)

Module JsString.

Definition jsstring := list N.

Local Open Scope N_scope.

(** White space and line terminators, as [String.prototype.trim] takes
    them. *)
Definition is_whitespace (c : N) : bool :=
  (c =? 9) || (c =? 10) || (c =? 11) || (c =? 12) || (c =? 13) || (c =? 32)
  || (c =? 160) || (c =? 5760) || ((8192 <=? c) && (c <=? 8202))
  || (c =? 8232) || (c =? 8233) || (c =? 8239) || (c =? 8287) || (c =? 12288)
  || (c =? 65279).

(** Line terminators, after which [^] matches under the flag [m]. *)
Definition is_line_terminator (c : N) : bool :=
  (c =? 10) || (c =? 13) || (c =? 8232) || (c =? 8233).

Fixpoint drop_whitespace (s : jsstring) : jsstring :=
  match s with
  | [] => []
  | c :: rest => if is_whitespace c then drop_whitespace rest else s
  end.

(** [s.trim()] *)
Definition trim (s : jsstring) : jsstring :=
  rev (drop_whitespace (rev (drop_whitespace s))).

(** A string is truthy when it is not empty. *)
Definition truthy (s : jsstring) : bool :=
  match s with
  | [] => false
  | _ => true
  end.

Fixpoint starts_with (pattern s : jsstring) : bool :=
  match pattern, s with
  | [], _ => true
  | p :: pattern', c :: s' => (p =? c) && starts_with pattern' s'
  | _ :: _, [] => false
  end.

End JsString.

(** ** components/SetupScreen.tsx and App.tsx *)

Module App.

Import JsString.

Inductive Personality := SASSY | PROFESSOR | ROBOT | HYPE.

Inductive mode := standard | live.

Record GameConfig := mkConfig {
  topic : jsstring;
  personality : Personality;
  game : mode
}.

(** *** The set-up screen *)

Record Setup := mkSetup {
  setup_topic : jsstring;
  setup_personality : Personality;
  setup_mode : mode
}.

(** [useState('')], [useState(Personality.SASSY)], [useState('live')] *)
Definition setup_initial : Setup :=
  {| setup_topic := []; setup_personality := SASSY; setup_mode := live |}.

(** [handleStart]: the configuration given to [onStart], if any. *)
Definition handleStart (s : Setup) : option GameConfig :=
  if truthy (trim (setup_topic s))
  then Some {| topic := setup_topic s; personality := setup_personality s;
               game := setup_mode s |}
  else None.

(** *** The application *)

Inductive GameMode := SETUP | LOADING | STANDARD | LIVE | RESULTS.

(** The state of [App]; [pending] is the [newConfig] of a call of
    [handleStartGame] that waits for [generateTriviaQuestions]. *)
Record State := mkState {
  gameMode : GameMode;
  config : option GameConfig;
  questions : list StandardGame.TriviaQuestion;
  sources : list jsstring;
  finalScore : nat;
  error : option string;
  pending : option GameConfig
}.

Definition initial : State :=
  {| gameMode := SETUP; config := None; questions := []; sources := [];
     finalScore := 0; error := None; pending := None |}.

(** [handleStartGame], up to its [await]. *)
Definition handleStartGame (newConfig : GameConfig) (a : State) : State :=
  {| gameMode := LOADING; config := Some newConfig; questions := questions a;
     sources := sources a; finalScore := finalScore a; error := None;
     pending := Some newConfig |}.

(** [handleStartGame], after [generateTriviaQuestions] has returned. *)
Definition generated (qs : list StandardGame.TriviaQuestion) (srcs : list jsstring)
  (a : State) : State :=
  match pending a with
  | Some newConfig =>
      {| gameMode := match game newConfig with live => LIVE | standard => STANDARD end;
         config := config a; questions := qs; sources := srcs;
         finalScore := finalScore a; error := error a; pending := None |}
  | None => a
  end.

(** [handleStartGame], after [generateTriviaQuestions] has thrown. *)
Definition generation_failed (a : State) : State :=
  match pending a with
  | Some _ =>
      {| gameMode := SETUP; config := config a; questions := questions a;
         sources := sources a; finalScore := finalScore a;
         error := Some "Failed to generate questions. Please try a different topic."%string;
         pending := None |}
  | None => a
  end.

Definition handleGameComplete (score : nat) (a : State) : State :=
  {| gameMode := RESULTS; config := config a; questions := questions a;
     sources := sources a; finalScore := score; error := error a;
     pending := pending a |}.

Definition resetGame (a : State) : State :=
  {| gameMode := SETUP; config := config a; questions := []; sources := [];
     finalScore := 0; error := error a; pending := pending a |}.

(** What can happen, each on the screen that offers it: the set-up screen
    starts a game; the request for questions ends; the standard game
    completes with a score; the live game ends, which is
    [handleGameComplete(0)]; "Play Again" on the results. *)
Inductive event :=
| Start (newConfig : GameConfig)
| Generated (qs : list StandardGame.TriviaQuestion) (srcs : list jsstring)
| GenerationFailed
| Complete (score : nat)
| EndLive
| PlayAgain.

Definition step (ev : event) (a : State) : State :=
  match ev, gameMode a with
  | Start newConfig, SETUP => handleStartGame newConfig a
  | Generated qs srcs, _ => generated qs srcs a
  | GenerationFailed, _ => generation_failed a
  | Complete score, STANDARD =>
      match config a with Some _ => handleGameComplete score a | None => a end
  | EndLive, LIVE =>
      match config a with Some _ => handleGameComplete 0 a | None => a end
  | PlayAgain, RESULTS => resetGame a
  | _, _ => a
  end.

Definition run (evs : list event) (a : State) : State :=
  fold_left (fun a ev => step ev a) evs a.

(** What holds on each screen. *)
Definition screen_invariant (a : State) : Prop :=
  match gameMode a with
  | SETUP =>
      questions a = [] /\ sources a = [] /\ finalScore a = 0%nat /\ pending a = None
  | LOADING =>
      pending a = config a /\ config a <> None
      /\ questions a = [] /\ sources a = [] /\ finalScore a = 0%nat
  | STANDARD =>
      (exists c, config a = Some c /\ game c = standard)
      /\ finalScore a = 0%nat /\ pending a = None
  | LIVE =>
      (exists c, config a = Some c /\ game c = live)
      /\ finalScore a = 0%nat /\ pending a = None
  | RESULTS =>
      (exists c, config a = Some c /\ (game c = live -> finalScore a = 0%nat))
      /\ pending a = None
  end.

End App.

(** ** services/geminiService.ts: the text of the answer, before JSON.parse *)

Module GeminiService.

Import JsString.

Local Open Scope N_scope.

(** "```json" and "```" *)
Definition fence_json : jsstring := [96; 96; 96; 106; 115; 111; 110].
Definition fence : jsstring := [96; 96; 96].

(** [s.replace(/^pattern/gm, '')] for a pattern of plain characters: the
    text is read from left to right; at the start of the text or after a
    line terminator, an occurrence of the pattern is dropped and the reading
    goes on after it.  [skip] counts the characters of an occurrence still
    to drop. *)
Fixpoint remove_at_line_starts (pattern : jsstring) (at_start : bool) (skip : nat)
  (s : jsstring) : jsstring :=
  match s with
  | [] => []
  | c :: rest =>
      match skip with
      | S k => remove_at_line_starts pattern false k rest
      | O =>
          if at_start && starts_with pattern s
          then remove_at_line_starts pattern false (Nat.pred (List.length pattern)) rest
          else c :: remove_at_line_starts pattern (is_line_terminator c) 0 rest
      end
  end.

(** [text.replace(/^```json/gm, '').replace(/^```/gm, '').trim()] *)
Definition sanitize (text : jsstring) : jsstring :=
  trim (remove_at_line_starts fence true 0
          (remove_at_line_starts fence_json true 0 text)).

(** No line of [s] begins with the pattern; [at_start] tells whether [s]
    itself begins a line. *)
Fixpoint line_starts_free (pattern : jsstring) (at_start : bool) (s : jsstring) : bool :=
  match s with
  | [] => true
  | c :: rest =>
      negb (at_start && starts_with pattern s)
      && line_starts_free pattern (is_line_terminator c) rest
  end.

End GeminiService.

(** * Properties *)

Unset Implicit Arguments.

(** ** Lists taken three elements at a time *)

Section ListInd3.
Variable A : Type.
Variable P : list A -> Prop.
Hypothesis P0 : P [].
Hypothesis P1 : forall a, P [a].
Hypothesis P2 : forall a b, P [a; b].
Hypothesis P3 : forall a b c l, P l -> P (a :: b :: c :: l).

Lemma list_ind3 : forall l, P l.
Proof.
  assert (H : forall l, P l /\ (forall a, P (a :: l)) /\ (forall a b, P (a :: b :: l))).
  { induction l as [|x l (IH0 & IH1 & IH2)]; repeat split; auto. }
  intro l. apply H.
Qed.
End ListInd3.

(** ** Base64 *)

Section Base64Facts.
Import Base64.
Local Open Scope N_scope.

(** Runs through the 64 sextets. *)
Ltac sextet_cases v H :=
  let n := fresh "n" in
  let Hn := fresh "Hn" in
  assert (Hn : exists n, v = N.of_nat n /\ (n < 64)%nat)
    by (exists (N.to_nat v); split; lia);
  destruct Hn as (n & -> & Hn);
  do 64 (destruct n as [|n]; [vm_compute; reflexivity|]);
  lia.

Lemma b64_index_char v : v < 64 -> b64_index (b64_char v) = Some v.
Proof. intro H. sextet_cases v H. Qed.

Lemma b64_char_not_pad v : v < 64 -> Ascii.eqb (b64_char v) pad = false.
Proof. intro H. sextet_cases v H. Qed.

Lemma b64_char_not_ws v : v < 64 -> is_ascii_whitespace (b64_char v) = false.
Proof. intro H. sextet_cases v H. Qed.

Lemma byte_bound (a : ascii) : N_of_ascii a < 256.
Proof. apply N_ascii_bounded. Qed.

Ltac bytes_bounded :=
  repeat match goal with
         | a : ascii |- _ =>
             lazymatch goal with
             | _ : N_of_ascii a < 256 |- _ => fail
             | _ => pose proof (byte_bound a)
             end
         end.

Lemma sextets_bounded s : Forall (fun v => v < 64) (sextets s).
Proof.
  induction s as [|a|a b|a b c l IH] using list_ind3; cbn [sextets];
    bytes_bounded; repeat constructor; auto;
    try (apply N.mod_lt; lia);
    apply N.Div0.div_lt_upper_bound; lia.
Qed.

Lemma mod4_step k : N.of_nat (S (S (S (S k)))) mod 4 = N.of_nat k mod 4.
Proof.
  replace (N.of_nat (S (S (S (S k))))) with (N.of_nat k + 1 * 4) by lia.
  apply N.Div0.mod_add.
Qed.

Lemma mod3_step k : (S (S (S k)) mod 3 = k mod 3)%nat.
Proof.
  replace (S (S (S k))) with (k + 1 * 3)%nat by lia.
  apply Nat.Div0.mod_add.
Qed.

Lemma btoa_chars_sextets s :
  btoa_chars s = map b64_char (sextets s) ++ padding s.
Proof.
  induction s as [|a|a b|a b c l IH] using list_ind3; try reflexivity.
  cbn [btoa_chars sextets map app]. rewrite IH.
  unfold padding. cbn [List.length]. rewrite mod3_step. reflexivity.
Qed.

Lemma padding_cases s : padding s = [] \/ padding s = [pad] \/ padding s = [pad; pad].
Proof.
  unfold padding. destruct (List.length s mod 3)%nat as [|[|[|n]]]; auto.
Qed.

Lemma btoa_chars_length s : N.of_nat (List.length (btoa_chars s)) mod 4 = 0.
Proof.
  induction s as [|a|a b|a b c l IH] using list_ind3; try reflexivity.
  cbn [btoa_chars List.length]. rewrite mod4_step. exact IH.
Qed.

Lemma sextets_length s : N.of_nat (List.length (sextets s)) mod 4 <> 1.
Proof.
  induction s as [|a|a b|a b c l IH] using list_ind3; try (vm_compute; discriminate).
  cbn [sextets List.length]. rewrite mod4_step. exact IH.
Qed.

Lemma btoa_chars_no_whitespace s :
  filter (fun c => negb (is_ascii_whitespace c)) (btoa_chars s) = btoa_chars s.
Proof.
  rewrite btoa_chars_sextets.
  rewrite filter_app.
  f_equal.
  - pose proof (sextets_bounded s) as Hb.
    induction Hb as [|v l Hv Hl IH]; [reflexivity|].
    cbn [map filter]. rewrite (b64_char_not_ws _ Hv). cbn [negb]. now rewrite IH.
  - destruct (padding_cases s) as [-> | [-> | ->]]; reflexivity.
Qed.

Lemma strip_padding_sextets l p :
  Forall (fun v => v < 64) l ->
  p = [] \/ p = [pad] \/ p = [pad; pad] ->
  strip_padding (map b64_char l ++ p) = map b64_char l.
Proof.
  intros Hl Hp. induction Hl as [|v l Hv Hl IH].
  - destruct Hp as [-> | [-> | ->]]; reflexivity.
  - cbn [map app strip_padding]. rewrite (b64_char_not_pad _ Hv).
    cbn [andb]. now rewrite IH.
Qed.

Lemma indices_sextets l :
  Forall (fun v => v < 64) l -> indices (map b64_char l) = Some l.
Proof.
  induction 1 as [|v l Hv Hl IH]; [reflexivity|].
  cbn [map indices]. now rewrite (b64_index_char _ Hv), IH.
Qed.

Ltac euclid := zify; Z.to_euclidean_division_equations; lia.

Lemma ascii_of_N_eq (n : N) (a : ascii) : n = N_of_ascii a -> ascii_of_N n = a.
Proof. intros ->. apply ascii_N_embedding. Qed.

Lemma decode_sextets_sextets s : decode_sextets (sextets s) = s.
Proof.
  induction s as [|a|a b|a b c l IH] using list_ind3.
  - reflexivity.
  - cbn [sextets decode_sextets]. bytes_bounded.
    f_equal. apply ascii_of_N_eq. euclid.
  - cbn [sextets decode_sextets]. bytes_bounded.
    f_equal; [|f_equal]; apply ascii_of_N_eq; euclid.
  - cbn [sextets decode_sextets]. bytes_bounded. rewrite IH.
    f_equal; [|f_equal; [|f_equal]]; apply ascii_of_N_eq; euclid.
Qed.

Lemma atob_btoa_chars s : atob_chars (btoa_chars s) = Some s.
Proof.
  unfold atob_chars.
  rewrite btoa_chars_no_whitespace, btoa_chars_length. cbn [N.eqb].
  rewrite btoa_chars_sextets.
  rewrite (strip_padding_sextets _ _ (sextets_bounded s) (padding_cases s)).
  rewrite length_map.
  destruct (N.eqb_spec (N.of_nat (List.length (sextets s)) mod 4) 1) as [E|_].
  - now apply sextets_length in E.
  - rewrite (indices_sextets _ (sextets_bounded s)). cbn [option_map].
    now rewrite decode_sextets_sextets.
Qed.

Lemma atob_btoa s : atob (btoa s) = Some s.
Proof.
  unfold atob, btoa.
  rewrite list_ascii_of_string_of_list_ascii, atob_btoa_chars. cbn [option_map].
  now rewrite string_of_list_ascii_of_string.
Qed.

End Base64Facts.

(** ** The PCM16 codec *)

Section CodecFacts.
Import AudioUtils.

(** *** Truncation *)

Lemma Qtrunc_nonneg q : 0 <= q -> Qtrunc q = Qfloor q.
Proof.
  destruct q as [n d]. unfold Qle, Qtrunc, Qfloor. cbn. intro H.
  apply Z.quot_div_nonneg; lia.
Qed.

Lemma Qtrunc_nonpos q : q <= 0 -> Qtrunc q = Qceiling q.
Proof.
  destruct q as [n d]. unfold Qle, Qtrunc, Qceiling, Qfloor. cbn. intro H.
  rewrite <- (Z.opp_involutive n) at 1. rewrite Z.quot_opp_l by lia.
  f_equal. apply Z.quot_div_nonneg; lia.
Qed.

Lemma Qtrunc_below q :
  0 <= q -> inject_Z (Qtrunc q) <= q /\ q < inject_Z (Qtrunc q) + 1.
Proof.
  intro H. rewrite (Qtrunc_nonneg _ H). split; [apply Qfloor_le|].
  pose proof (Qlt_floor q) as L. rewrite inject_Z_plus in L. exact L.
Qed.

Lemma Qtrunc_above q :
  q <= 0 -> q <= inject_Z (Qtrunc q) /\ inject_Z (Qtrunc q) < q + 1.
Proof.
  intro H. rewrite (Qtrunc_nonpos _ H). split; [apply Qle_ceiling|].
  pose proof (Qceiling_lt q) as L.
  assert (E : inject_Z (Qceiling q - 1) = inject_Z (Qceiling q) + (-1 # 1))
    by (unfold Z.sub; now rewrite inject_Z_plus).
  rewrite E in L. lra.
Qed.

Lemma Qtrunc_comp q q' : q == q' -> Qtrunc q = Qtrunc q'.
Proof.
  intro E. destruct (Qlt_le_dec q 0) as [N|P].
  - rewrite !Qtrunc_nonpos by lra. now rewrite E.
  - rewrite !Qtrunc_nonneg by lra. now rewrite E.
Qed.

Lemma Qtrunc_bounds q (a b : Z) :
  (a <= 0 <= b)%Z -> inject_Z a <= q -> q <= inject_Z b ->
  (a <= Qtrunc q <= b)%Z.
Proof.
  intros [Ha Hb] L U.
  destruct (Qlt_le_dec q 0) as [N|P].
  - destruct (Qtrunc_above q) as [A B]; [lra|].
    assert (H1 : inject_Z a <= inject_Z (Qtrunc q)) by lra.
    assert (H2 : inject_Z (Qtrunc q) < inject_Z 1)
      by (change (inject_Z 1) with 1; lra).
    rewrite <- Zle_Qle in H1. rewrite <- Zlt_Qlt in H2. lia.
  - destruct (Qtrunc_below _ P) as [A B].
    assert (H1 : inject_Z (Qtrunc q) <= inject_Z b) by lra.
    assert (H2 : inject_Z (-1) < inject_Z (Qtrunc q))
      by (change (inject_Z (-1)) with (-1); lra).
    rewrite <- Zle_Qle in H1. rewrite <- Zlt_Qlt in H2. lia.
Qed.

(** *** One sample *)

Lemma ToInt16_range x : (-32768 <= ToInt16 x <= 32767)%Z.
Proof.
  destruct x as [q| | |]; cbn [ToInt16]; try lia.
  destruct (Z.ltb_spec (Qtrunc q mod 65536) 32768);
    pose proof (Z.mod_pos_bound (Qtrunc q) 65536); lia.
Qed.

Lemma ToInt16_no_wrap q :
  (-32768 <= Qtrunc q <= 32767)%Z -> ToInt16 (Fin q) = Qtrunc q.
Proof.
  intro H. cbn [ToInt16].
  destruct (Z.ltb_spec (Qtrunc q mod 65536) 32768);
    Z.to_euclidean_division_equations; lia.
Qed.

Lemma scaled_in_range q :
  -1 <= q -> q <= 1 ->
  (-32768 <= Qtrunc (if Qlt_le_dec q 0 then q * 32768 else q * 32767) <= 32767)%Z.
Proof.
  intros L U. destruct (Qlt_le_dec q 0) as [N|P].
  - assert (H : (-32768 <= Qtrunc (q * 32768) <= 0)%Z).
    { apply Qtrunc_bounds; [lia| |];
        [change (inject_Z (-32768)) with (-32768) | change (inject_Z 0) with 0];
        lra. }
    lia.
  - assert (H : (0 <= Qtrunc (q * 32767) <= 32767)%Z).
    { apply Qtrunc_bounds; [lia| |];
        [change (inject_Z 0) with 0 | change (inject_Z 32767) with 32767];
        lra. }
    lia.
Qed.

Lemma clamp_range q : -1 <= clamp q /\ clamp q <= 1.
Proof.
  unfold clamp.
  destruct (Qlt_le_dec q (-1)); [lra|]. destruct (Qlt_le_dec 1 q); lra.
Qed.

Lemma pcm16_sample_Fin q : pcm16_sample (Fin q) = encodeToPCM16_sample q.
Proof.
  unfold pcm16_sample, encodeToPCM16_sample.
  destruct (clamp_range q) as [L U].
  pose proof (scaled_in_range _ L U) as R.
  rewrite <- (ToInt16_no_wrap _ R). clear R.
  unfold clamp in *. cbn [Math_min Math_max float_lt].
  destruct (Qlt_le_dec q 1) as [A|A]; cbn [float_lt];
    [destruct (Qlt_le_dec (-1) q) as [B|B]|destruct (Qlt_le_dec (-1) 1) as [B|B]];
    cbn [float_lt];
    destruct (Qlt_le_dec q (-1)) as [C|C]; try lra;
    destruct (Qlt_le_dec 1 q) as [D|D]; try lra;
    repeat match goal with
           | |- context [Qlt_le_dec ?x 0] => destruct (Qlt_le_dec x 0); try lra
           end;
    cbn [float_mul];
    match goal with
    | |- ToInt16 (Fin ?x) = ToInt16 (Fin ?y) =>
        first [ reflexivity
              | unfold ToInt16; rewrite (Qtrunc_comp x y) by lra; reflexivity ]
    end.
Qed.

(** *** Bytes *)

Lemma Z_of_byte_u8 z : Z_of_byte (u8 z) = (z mod 256)%Z.
Proof.
  unfold Z_of_byte, u8.
  pose proof (Z.mod_pos_bound z 256 ltac:(lia)) as B.
  set (n := Z.to_N (z mod 256)).
  assert (Hn : (n < 256)%N) by (subst n; lia).
  pose proof (byte_of_ascii_via_N (ascii_of_N n)) as E.
  rewrite (N_ascii_embedding n Hn) in E. symmetry in E.
  apply Byte.to_of_N in E. rewrite E. subst n. lia.
Qed.

Lemma int16_of_bytes_int16_bytes v rest :
  (-32768 <= v <= 32767)%Z ->
  int16_elements (int16_bytes v ++ rest) = v :: int16_elements rest.
Proof.
  intro H. cbn [int16_bytes app int16_elements]. f_equal.
  unfold int16_of_bytes. rewrite !Z_of_byte_u8.
  destruct (Z.ltb_spec (v mod 256 mod 256 + 256 * ((v / 256) mod 256 mod 256)) 32768);
    Z.to_euclidean_division_equations; lia.
Qed.

Lemma int16_elements_buffer l :
  Forall (fun v => (-32768 <= v <= 32767)%Z) l ->
  int16_elements (Int16Array_buffer l) = l.
Proof.
  induction 1 as [|v l Hv Hl IH]; [reflexivity|].
  cbn [Int16Array_buffer flat_map].
  rewrite (int16_of_bytes_int16_bytes _ _ Hv). f_equal. exact IH.
Qed.

Lemma Int16Array_buffer_length l :
  List.length (Int16Array_buffer l) = (2 * List.length l)%nat.
Proof.
  unfold Int16Array_buffer.
  induction l as [|v l IH]; [reflexivity|].
  cbn [flat_map int16_bytes app List.length].
  rewrite IH. lia.
Qed.

Lemma new_Int16Array_buffer l :
  Forall (fun v => (-32768 <= v <= 32767)%Z) l ->
  new_Int16Array (Int16Array_buffer l) = Some l.
Proof.
  intro H. unfold new_Int16Array.
  rewrite Int16Array_buffer_length, Nat.even_mul. cbn [Nat.even orb].
  now rewrite int16_elements_buffer.
Qed.

Lemma int16_elements_length n : forall b,
  List.length b = (2 * n)%nat -> List.length (int16_elements b) = n.
Proof.
  induction n as [|n IH]; intros b H.
  - destruct b; [reflexivity|discriminate].
  - destruct b as [|lo [|hi rest]]; cbn [List.length] in H; try lia.
    cbn [int16_elements List.length]. f_equal. apply IH. lia.
Qed.

Lemma elements_new_Uint8Array b : elements (new_Uint8Array b) = b.
Proof. unfold elements, new_Uint8Array. cbn. apply firstn_all. Qed.

Lemma base64_round_trip b : base64ToArrayBuffer (arrayBufferToBase64 b) = Some b.
Proof.
  unfold base64ToArrayBuffer, arrayBufferToBase64.
  rewrite atob_btoa, elements_new_Uint8Array, list_ascii_of_string_of_list_ascii.
  rewrite map_map. f_equal.
  rewrite <- (map_id b) at 2. apply map_ext. apply byte_of_ascii_of_byte.
Qed.

Lemma pcm16_samples_in_range xs :
  Forall (fun v => (-32768 <= v <= 32767)%Z) (map pcm16_sample xs).
Proof.
  apply Forall_forall. intros v Hv. apply in_map_iff in Hv.
  destruct Hv as (x & <- & _). apply ToInt16_range.
Qed.

(** *** decodeAudioData *)

Lemma decodeAudioData_spec data rate :
  supported_sample_rate rate = true ->
  decodeAudioData data rate =
    if Nat.even (List.length (buffer data)) && negb (List.length (buffer data) =? 0)%nat
    then Some {| sampleRate := rate;
                 channelData :=
                   map (fun v => Fin (inject_Z v / 32768)) (int16_elements (buffer data)) |}
    else None.
Proof.
  intro Hr. unfold decodeAudioData, new_Int16Array, createBuffer. rewrite Hr. cbn [negb].
  destruct (Nat.even (List.length (buffer data))) eqn:E; [|reflexivity].
  cbn [andb]. apply Nat.even_spec in E. destruct E as [n E].
  rewrite (int16_elements_length n _ E), E.
  destruct n as [|n]; reflexivity.
Qed.

(** *** The transcoding and the codec, as specified *)

(** C9. For every byte sequence, the empty one included, turning it into its
    base64 text with [arrayBufferToBase64] and back with
    [base64ToArrayBuffer] succeeds and yields exactly the same bytes. *)
Theorem base64_transcoding_round_trip (b : ArrayBuffer) :
  base64ToArrayBuffer (arrayBufferToBase64 b) = Some b.
Proof. apply base64_round_trip. Qed.

Example base64_of_three_bytes :
  arrayBufferToBase64 [xfe; x7f; x00] = "/n8A"%string
  /\ base64ToArrayBuffer "/n8A" = Some [xfe; x7f; x00]
  /\ arrayBufferToBase64 [] = EmptyString
  /\ base64ToArrayBuffer EmptyString = Some [].
Proof. repeat split; reflexivity. Qed.

Example pcm16_samples :
  map pcm16_sample
    [Fin (65535 # 65536); Fin (-3); NaN; PInf; NInf; Fin (1 # 2); Fin (-1 # 3); Fin 7]
  = [32766; -32768; 0; 32767; -32768; 16383; -10922; 32767]%Z.
Proof. reflexivity. Qed.

(** C5. For every sequence of samples, whatever their values, the 16-bit
    integers [createPCM16Blob] writes are, sample by sample, the value of
    the specification: the sample clamped to [-1, 1], scaled by 32768 when
    negative and by 32767 otherwise, and truncated; this value is in
    [-32768, 32767] as it stands, so storing it in the [Int16Array] does not
    wrap it.  The infinities are clamped like any other sample out of range
    and NaN is stored as 0. *)
Theorem pcm16_encoding_clamps_scales_truncates (float32Data : list float) :
  new_Int16Array (blob (createPCM16Blob float32Data))
    = Some (map pcm16_sample float32Data)
  /\ base64ToArrayBuffer (base64 (createPCM16Blob float32Data))
    = Some (blob (createPCM16Blob float32Data))
  /\ forall x : float,
      (-32768 <= pcm16_sample x <= 32767)%Z
      /\ pcm16_sample x =
         match x with
         | Fin q => encodeToPCM16_sample q
         | PInf => 32767%Z
         | NInf => (-32768)%Z
         | NaN => 0%Z
         end
      /\ match x with
         | Fin q =>
             let s := clamp q in
             -1 <= s /\ s <= 1
             /\ (-32768 <= Qtrunc (if Qlt_le_dec s 0 then s * 32768 else s * 32767)
                 <= 32767)%Z
         | _ => True
         end.
Proof.
  split; [|split].
  - cbn [createPCM16Blob blob]. apply new_Int16Array_buffer, pcm16_samples_in_range.
  - cbn [createPCM16Blob blob base64 new_Uint8Array buffer]. apply base64_round_trip.
  - intro x. split; [apply ToInt16_range|]. split.
    + destruct x as [q| | |]; [apply pcm16_sample_Fin|reflexivity..].
    + destruct x as [q| | |]; auto.
      destruct (clamp_range q) as [L U]. cbv zeta.
      split; [exact L|]. split; [exact U|]. now apply scaled_in_range.
Qed.

(** C10, as the code has it.  [decodeAudioData] builds the [Int16Array] on
    the whole buffer under its argument.  At a supported sample rate it
    fails when the byte length of that buffer is odd, it fails when the
    buffer is empty (a buffer of zero frames cannot be created), and for a
    buffer of even byte length 2n with n at least 1 it gives exactly n
    samples, each the 16-bit little-endian integer divided by 32768. *)
Theorem decodeAudioData_defined_on_even_buffers (data : Uint8Array) (rate : positive) :
  supported_sample_rate rate = true ->
  (Nat.odd (List.length (buffer data)) = true -> decodeAudioData data rate = None)
  /\ (List.length (buffer data) = 0%nat -> decodeAudioData data rate = None)
  /\ (forall n, List.length (buffer data) = (2 * n)%nat -> n <> 0%nat ->
      exists audioBuffer,
        decodeAudioData data rate = Some audioBuffer
        /\ sampleRate audioBuffer = rate
        /\ List.length (channelData audioBuffer) = n
        /\ channelData audioBuffer
           = map (fun v => Fin (inject_Z v / 32768)) (int16_elements (buffer data))).
Proof.
  intro Hr. rewrite (decodeAudioData_spec data rate Hr). repeat split.
  - intro Ho. rewrite <- Nat.negb_odd, Ho. reflexivity.
  - intros ->. reflexivity.
  - intros n Hn Hz. rewrite Hn.
    rewrite Nat.even_mul. cbn [Nat.even orb andb].
    destruct (Nat.eqb_spec (2 * n) 0) as [E|_]; [lia|]. cbn [negb].
    eexists. split; [reflexivity|]. cbn [sampleRate channelData].
    split; [reflexivity|]. split; [|reflexivity].
    rewrite length_map. now apply int16_elements_length.
Qed.

Lemma decodeAudioData_defined_on_even_buffers_witness :
  decodeAudioData (new_Uint8Array [x00; x40; xff]) 24000 = None
  /\ decodeAudioData (new_Uint8Array []) 24000 = None
  /\ exists audioBuffer,
      decodeAudioData (new_Uint8Array [x00; x40; xff; xff]) 24000 = Some audioBuffer
      /\ sampleRate audioBuffer = 24000%positive
      /\ List.length (channelData audioBuffer) = 2%nat
      /\ channelData audioBuffer
         = map (fun v => Fin (inject_Z v / 32768))
             (int16_elements (buffer (new_Uint8Array [x00; x40; xff; xff]))).
Proof.
  split; [|split].
  - exact (proj1 (decodeAudioData_defined_on_even_buffers
                    (new_Uint8Array [x00; x40; xff]) 24000 eq_refl) eq_refl).
  - exact (proj1 (proj2 (decodeAudioData_defined_on_even_buffers
                           (new_Uint8Array []) 24000 eq_refl)) eq_refl).
  - refine (proj2 (proj2 (decodeAudioData_defined_on_even_buffers
                            (new_Uint8Array [x00; x40; xff; xff]) 24000 eq_refl))
              2%nat eq_refl _).
    discriminate.
Defined.

(** C10, as stated, fails twice: a view of odd length on a buffer of even
    length is decoded (the whole buffer is), and the empty input, of even
    length 0, is refused instead of giving 0 samples. *)
Lemma decodeAudioData_odd_view_and_empty_input :
  let view := {| buffer := [x00; x00; x00; x40]; byteOffset := 0; byteLength := 3 |} in
  (Nat.odd (byteLength view) = true
   /\ List.length (elements view) = 3%nat
   /\ decodeAudioData view 24000
      = Some {| sampleRate := 24000;
                channelData := [Fin (0 # 32768); Fin (16384 # 32768)] |})
  /\ (byteLength (new_Uint8Array []) = (2 * 0)%nat
      /\ decodeAudioData (new_Uint8Array []) 24000 = None).
Proof. repeat split. Qed.

(** *** Encoding, then decoding *)

(** The sample that comes back for [q]. *)
Ltac steps :=
  unfold Qdiv in *; change (/ 32768) with (1 # 32768) in *; lra.

Lemma decoded_sample_error q :
  -1 <= q -> q <= 1 ->
  let y := inject_Z (encodeToPCM16_sample q) / 32768 in
  Qabs (y - q) < 2 / 32768 /\ (q < 0 -> Qabs (y - q) < 1 / 32768).
Proof.
  intros L U. cbv zeta. unfold encodeToPCM16_sample, clamp.
  destruct (Qlt_le_dec q (-1)) as [C|C]; [lra|].
  destruct (Qlt_le_dec 1 q) as [D|D].
  - (* q == 1 *)
    destruct (Qlt_le_dec 1 0) as [E|E]; [lra|].
    change (Qtrunc (1 * 32767)) with 32767%Z.
    change (inject_Z 32767) with 32767.
    split; [|intro; lra].
    apply Qabs_Qlt_condition. steps.
  - destruct (Qlt_le_dec q 0) as [N|P].
    + destruct (Qtrunc_above (q * 32768)) as [A B]; [lra|].
      assert (Qabs (inject_Z (Qtrunc (q * 32768)) / 32768 - q) < 1 / 32768)
        by (apply Qabs_Qlt_condition; steps).
      split; [steps|auto].
    + destruct (Qtrunc_below (q * 32767)) as [A B]; [lra|].
      split; [|intro; lra].
      apply Qabs_Qlt_condition; steps.
Qed.

Lemma pcm16_round_trip_samples (xs : list float) (rate : positive) :
  supported_sample_rate rate = true ->
  pcm16_round_trip xs rate =
    match xs with
    | [] => None
    | _ => Some {| sampleRate := rate;
                   channelData :=
                     map (fun x => Fin (inject_Z (pcm16_sample x) / 32768)) xs |}
    end.
Proof.
  intro Hr. unfold pcm16_round_trip.
  cbn [createPCM16Blob base64 new_Uint8Array buffer].
  rewrite base64_round_trip, (decodeAudioData_spec _ rate Hr).
  cbn [new_Uint8Array buffer].
  rewrite Int16Array_buffer_length, length_map, Nat.even_mul. cbn [Nat.even orb andb].
  rewrite int16_elements_buffer by apply pcm16_samples_in_range.
  destruct xs as [|x xs]; [reflexivity|].
  destruct (Nat.eqb_spec (2 * List.length (x :: xs)) 0) as [E|_];
    [cbn [List.length] in E; lia|].
  cbn [negb]. now rewrite map_map.
Qed.

(** C4, as the code has it.  For every non-empty sequence of samples in
    [-1, 1], decoding (at a supported sample rate) the frame that
    [createPCM16Blob] makes of it gives a sequence of the same length in
    which each sample differs from the original by less than two
    quantization steps (2/32768), and by less than one step (1/32768) when
    the original is negative. *)
Theorem pcm16_round_trip_within_two_steps (xs : list Q) (rate : positive) :
  xs <> [] ->
  supported_sample_rate rate = true ->
  Forall (fun q => -1 <= q /\ q <= 1) xs ->
  exists ys : list Q,
    pcm16_round_trip (map Fin xs) rate
      = Some {| sampleRate := rate; channelData := map Fin ys |}
    /\ List.length ys = List.length xs
    /\ Forall2 (fun x y =>
                  Qabs (y - x) < 2 / 32768 /\ (x < 0 -> Qabs (y - x) < 1 / 32768))
         xs ys.
Proof.
  intros Hne Hr Hxs.
  exists (map (fun q => inject_Z (encodeToPCM16_sample q) / 32768) xs).
  split; [|split].
  - rewrite (pcm16_round_trip_samples _ rate Hr).
    destruct xs as [|x xs]; [contradiction|].
    cbn [map]. rewrite !pcm16_sample_Fin. do 3 f_equal.
    rewrite !map_map. apply map_ext. intro q. now rewrite pcm16_sample_Fin.
  - apply length_map.
  - clear Hne. induction Hxs as [|q xs [L U] _ IH]; cbn [map]; constructor.
    + exact (decoded_sample_error q L U).
    + exact IH.
Qed.

Lemma pcm16_round_trip_within_two_steps_witness :
  exists ys : list Q,
    pcm16_round_trip (map Fin [1 # 2; -1 # 3; 1; -1]) 24000
      = Some {| sampleRate := 24000; channelData := map Fin ys |}
    /\ List.length ys = 4%nat
    /\ Forall2 (fun x y =>
                  Qabs (y - x) < 2 / 32768 /\ (x < 0 -> Qabs (y - x) < 1 / 32768))
         [1 # 2; -1 # 3; 1; -1] ys.
Proof.
  apply (pcm16_round_trip_within_two_steps [1 # 2; -1 # 3; 1; -1] 24000).
  - discriminate.
  - reflexivity.
  - repeat constructor; discriminate.
Defined.

(** C4, as stated, fails: the sample 65535/65536 comes back as 32766/32768,
    three halves of a quantization step away; and the empty sequence is not
    decoded at all. *)
Lemma pcm16_round_trip_exceeds_one_step :
  (-1 <= 65535 # 65536 /\ 65535 # 65536 <= 1)
  /\ pcm16_round_trip [Fin (65535 # 65536)] 24000
     = Some {| sampleRate := 24000; channelData := [Fin (32766 # 32768)] |}
  /\ ~ Qabs ((32766 # 32768) - (65535 # 65536)) <= 1 / 32768
  /\ pcm16_round_trip [] 24000 = None.
Proof.
  split; [split; discriminate|].
  split; [reflexivity|].
  split; [|reflexivity].
  intro H. vm_compute in H. apply H. reflexivity.
Qed.

End CodecFacts.

(** ** The playback scheduler *)

Section PlaybackFacts.
Import AudioUtils LiveGame LiveGame.Playback.

Lemma duration_nonneg b : 0 <= duration b.
Proof. unfold duration, Qle. cbn. lia. Qed.

Lemma Set_add_in x s : In x (Set_add x s).
Proof.
  unfold Set_add. destruct (existsb (Nat.eqb x) s) eqn:E.
  - apply existsb_exists in E. destruct E as (y & Hy & Exy).
    apply Nat.eqb_eq in Exy. now subst.
  - apply in_or_app. right. now left.
Qed.

(** The cursor is not behind: the buffer starts at the cursor. *)
Lemma schedule_at_cursor now b r :
  now <= nextStartTimeRef r ->
  schedule now b r =
    ({| outputReady := outputReady r;
        nextStartTimeRef := nextStartTimeRef r + duration b;
        sourcesRef := Set_add (created r) (sourcesRef r);
        created := S (created r) |},
     [Start (created r) b (nextStartTimeRef r)]).
Proof.
  intro H. unfold schedule.
  destruct (Qlt_le_dec (nextStartTimeRef r) now) as [L|_]; [|reflexivity].
  exfalso. apply (Qlt_not_le _ _ L H).
Qed.

(** The cursor is behind: the buffer starts now. *)
Lemma schedule_now now b r :
  nextStartTimeRef r < now ->
  schedule now b r =
    ({| outputReady := outputReady r;
        nextStartTimeRef := now + duration b;
        sourcesRef := Set_add (created r) (sourcesRef r);
        created := S (created r) |},
     [Start (created r) b now]).
Proof.
  intro H. unfold schedule.
  destruct (Qlt_le_dec (nextStartTimeRef r) now) as [_|L]; [reflexivity|].
  exfalso. apply (Qlt_not_le _ _ H L).
Qed.

(** A message that carries audio which decodes, received when the output
    is set up, schedules that audio. *)
Lemma handle_audio_schedules now msg r base64Audio audioBuffer :
  data msg = Some base64Audio ->
  truthy base64Audio = true ->
  outputReady r = true ->
  decode base64Audio = Some audioBuffer ->
  handle_audio now msg r = schedule now audioBuffer r.
Proof.
  intros Hd Ht Ho He. unfold handle_audio. now rewrite Hd, Ht, Ho, He.
Qed.

Lemma starts_app t1 t2 : starts (t1 ++ t2) = starts t1 ++ starts t2.
Proof.
  induction t1 as [|e t1 IH]; [reflexivity|].
  destruct e; cbn [app starts]; now rewrite IH.
Qed.

Lemma starts_handle_interruption msg r : starts (snd (handle_interruption msg r)) = [].
Proof.
  unfold handle_interruption. destruct (interrupted msg); [|reflexivity].
  cbn [snd starts]. induction (sourcesRef r) as [|x l IH]; [reflexivity|exact IH].
Qed.

Lemma onmessage_unfold now msg r :
  onmessage now msg r =
    (fst (handle_interruption msg (fst (handle_audio now msg r))),
     snd (handle_audio now msg r)
       ++ snd (handle_interruption msg (fst (handle_audio now msg r)))).
Proof.
  unfold onmessage. destruct (handle_audio now msg r) as [r1 e1]. cbn [fst snd].
  now destruct (handle_interruption msg r1).
Qed.

(** C6. A buffer scheduled when the cursor has fallen behind the output
    clock starts at the current time, which is neither the stale cursor nor
    in the past, and the cursor becomes the current time plus the duration
    of the buffer.  This is what [onmessage] does for a message whose audio
    decodes. *)
Theorem catch_up_after_stall (now : Q) (audioBuffer : AudioBuffer) (r : Refs) :
  nextStartTimeRef r < now ->
  snd (schedule now audioBuffer r) = [Start (created r) audioBuffer now]
  /\ nextStartTimeRef (fst (schedule now audioBuffer r)) = now + duration audioBuffer
  /\ ~ now == nextStartTimeRef r
  /\ forall msg base64Audio,
       data msg = Some base64Audio ->
       truthy base64Audio = true ->
       outputReady r = true ->
       decode base64Audio = Some audioBuffer ->
       starts (snd (onmessage now msg r)) = [now].
Proof.
  intro H. rewrite (schedule_now now audioBuffer r H). cbn [fst snd nextStartTimeRef].
  split; [reflexivity|]. split; [reflexivity|]. split; [lra|].
  intros msg base64Audio Hd Ht Ho He.
  rewrite onmessage_unfold. cbn [snd].
  rewrite starts_app, starts_handle_interruption, app_nil_r.
  rewrite (handle_audio_schedules now msg r base64Audio audioBuffer Hd Ht Ho He).
  now rewrite (schedule_now now audioBuffer r H).
Qed.

Lemma catch_up_after_stall_witness :
  snd (schedule 3 one_frame stalled) = [Start 8 one_frame 3]
  /\ nextStartTimeRef (fst (schedule 3 one_frame stalled)) = 3 + duration one_frame
  /\ ~ 3 == nextStartTimeRef stalled
  /\ forall msg base64Audio,
       data msg = Some base64Audio ->
       truthy base64Audio = true ->
       outputReady stalled = true ->
       decode base64Audio = Some one_frame ->
       starts (snd (onmessage 3 msg stalled)) = [3].
Proof.
  apply (catch_up_after_stall 3 one_frame stalled). reflexivity.
Defined.

Example catch_up_message :
  onmessage 3 {| data := Some "AAA="%string; interrupted := false |} stalled
  = ({| outputReady := true; nextStartTimeRef := 3 + (1 # 24000);
        sourcesRef := [7; 8]%nat; created := 9 |},
     [Start 8 one_frame 3]).
Proof. reflexivity. Qed.

(** A message that carries audio and the interruption flag has its audio
    scheduled first and the interruption handled after, which stops it. *)
Lemma own_fragment_scheduled_before_interruption :
  let msg := {| data := Some "AAA="%string; interrupted := true |} in
  let t := snd (onmessage 0 msg at_rest) in
  t = [Start 0 one_frame 0; LogInterrupted; Stop 0]
  /\ position is_start t = Some 0%nat
  /\ position is_interruption t = Some 1%nat.
Proof. repeat split. Qed.

Example interrupted_turn_trace :
  snd (run [Message 0 {| data := Some "AAA="%string; interrupted := false |};
            Message (1 # 100000) {| data := Some "AAA="%string; interrupted := true |};
            Message (1 # 2) {| data := Some "AAA="%string; interrupted := false |}]
         at_rest)
  = [Start 0 one_frame 0;
     Start 1 one_frame (0 + (1 # 24000));
     LogInterrupted; Stop 0; Stop 1;
     Start 2 one_frame (1 # 2)].
Proof. reflexivity. Qed.

End PlaybackFacts.

(** ** The capture handler *)

Section CaptureFacts.
Import AudioUtils LiveGame LiveGame.Capture.

(** [toggleMute] changes the state the button shows and nothing the handler
    reads. *)
Lemma toggleMute_handler c :
  handler_isMuted (toggleMute c) = handler_isMuted c
  /\ isMuted (toggleMute c) = negb (isMuted c).
Proof. split; reflexivity. Qed.

(** C3 fails on the code.  After the effect has run and the session is
    open, [toggleMute] sets the mute flag, and the frame of the next chunk
    is given to the session all the same: the handler reads the [isMuted] of
    the render in which it was created. *)
Theorem muted_chunk_is_forwarded (inputData : list float) :
  let c := run [RunEffect; SessionOpened; ToggleMute] initial in
  isMuted c = true
  /\ sent c = []
  /\ sent (onaudioprocess inputData c) = [base64 (createPCM16Blob inputData)].
Proof. repeat split. Qed.

(** The handler sends the same frames whether the mute flag is set or not. *)
Lemma onaudioprocess_ignores_toggleMute inputData c :
  sent (onaudioprocess inputData (toggleMute c)) = sent (onaudioprocess inputData c)
  /\ waiting (onaudioprocess inputData (toggleMute c))
     = waiting (onaudioprocess inputData c).
Proof.
  unfold onaudioprocess, toggleMute. cbn [handler_isMuted sessionRef sent waiting].
  destruct (handler_isMuted c); [split; reflexivity|].
  destruct (Capture.sessionRef c) as [[| |]|]; split; reflexivity.
Qed.

End CaptureFacts.

(** ** The clean-up *)

Section CleanupFacts.
Import LiveGame LiveGame.Cleanup.

Lemma logged_nil w : logged [] w = w.
Proof. destruct w. unfold logged. cbn. now rewrite app_nil_r. Qed.

Lemma logged_logged l1 l2 w : logged l2 (logged l1 w) = logged (l1 ++ l2) w.
Proof. unfold logged. cbn. now rewrite app_assoc. Qed.

(** Stopping tracks that do not throw stops them all. *)
Lemma forEach_stop tracks : forall w,
  Forall (fun t => stop t = Returns) tracks ->
  forEach tracks (fun t => invoke (TrackStop (track t)) (stop t)) w
  = (logged (map (fun t => (TrackStop (track t), Returns)) tracks) w, Normal tt).
Proof.
  induction tracks as [|t tracks IH]; intros w H.
  - cbn. now rewrite logged_nil.
  - inversion H as [|? ? Ht Hts]; subst. cbn [forEach map].
    unfold bind at 1. unfold invoke at 1. rewrite Ht.
    rewrite (IH _ Hts), logged_logged. reflexivity.
Qed.

(** The callbacks of the microtasks never throw out of their microtask. *)
Lemma forEach_close_callback sessions : forall w,
  forEach sessions close_callback w
  = (logged (session_calls sessions) w, Normal tt).
Proof.
  induction sessions as [|s sessions IH]; intro w.
  - cbn. now rewrite logged_nil.
  - unfold session_calls. cbn [forEach flat_map]. fold (session_calls sessions).
    unfold bind at 1. unfold close_callback at 1.
    destruct (session_close s) as [o|].
    + unfold invoke. destruct o; cbn [fst]; rewrite IH, logged_logged; reflexivity.
    + rewrite IH. reflexivity.
Qed.

Lemma cleanup_when_devices_do_not_throw w :
  devices_do_not_throw w ->
  cleanup w =
    ({| isActive := false;
        sessionRef := sessionRef w;
        streamRef := streamRef w;
        inputContextRef := inputContextRef w;
        outputContextRef := outputContextRef w;
        log := log w ++ device_calls w;
        microtasks :=
          match sessionRef w with
          | Some (Fulfilled s) => microtasks w ++ [s]
          | _ => microtasks w
          end;
        on_fulfilled :=
          match sessionRef w with
          | Some Pending => S (on_fulfilled w)
          | _ => on_fulfilled w
          end |},
     Normal tt).
Proof.
  intros (Ht & Hi & Ho).
  destruct w as [a p s i o l m n]. cbn [streamRef inputContextRef outputContextRef] in *.
  destruct i as [[ci]|]; [specialize (Hi _ eq_refl); cbn in Hi; subst ci|clear Hi];
    (destruct o as [[co]|]; [specialize (Ho _ eq_refl); cbn in Ho; subst co|clear Ho]);
    unfold cleanup, device_calls, bind, get, set_isActive, optional, then_close;
    cbn [sessionRef streamRef inputContextRef outputContextRef isActive log microtasks
         on_fulfilled];
    destruct p as [[|sess|]|]; destruct s as [tracks|]; unfold ret; cbv beta iota.
  all: try rewrite (forEach_stop tracks _ (Ht tracks eq_refl)).
  all: unfold invoke, ret, logged; cbn; rewrite <- ?app_assoc, ?app_nil_r; reflexivity.
Qed.

Lemma run_microtasks_log w :
  snd (run_microtasks w) = Normal tt
  /\ log (fst (run_microtasks w)) = log w ++ session_calls (microtasks w)
  /\ sessionRef (fst (run_microtasks w)) = sessionRef w
  /\ streamRef (fst (run_microtasks w)) = streamRef w
  /\ inputContextRef (fst (run_microtasks w)) = inputContextRef w
  /\ outputContextRef (fst (run_microtasks w)) = outputContextRef w.
Proof.
  unfold run_microtasks. rewrite forEach_close_callback. repeat split.
Qed.

Lemma session_calls_app l1 l2 : session_calls (l1 ++ l2) = session_calls l1 ++ session_calls l2.
Proof. apply flat_map_app. Qed.

(** What the clean-up does with the references it finds.  Whatever the
    state of the session promise and whatever the session's [close] does,
    when stopping the tracks and closing the two contexts do not throw (on
    the platform they never do) the clean-up does not throw, the first time
    or again: it stops every track of the stream it finds, closes the input
    and the output context it finds, and the session's [close], when the
    promise is fulfilled and the session has one, is called in its own
    microtask, where what it throws stays. *)
Lemma cleanup_survives_session_close (w : World) :
  devices_do_not_throw w ->
  let w1 := fst (cleanup w) in
  let w2 := fst (run_microtasks w1) in
  snd (cleanup w) = Normal tt
  /\ snd (run_microtasks w1) = Normal tt
  /\ snd (cleanup w2) = Normal tt
  /\ isActive w1 = false
  /\ (forall tracks t, streamRef w = Some tracks -> In t tracks ->
        called (TrackStop (track t)) w1)
  /\ (forall ctx, inputContextRef w = Some ctx -> called InputContextClose w1)
  /\ (forall ctx, outputContextRef w = Some ctx -> called OutputContextClose w1)
  /\ (forall s o, sessionRef w = Some (Fulfilled s) -> session_close s = Some o ->
        In (SessionClose, o) (log w2))
  /\ (forall c, called c w1 -> called c w2).
Proof.
  intros H w1 w2.
  pose proof (cleanup_when_devices_do_not_throw w H) as E.
  destruct (run_microtasks_log w1) as (M0 & M1 & M2 & M3 & M4 & M5).
  assert (R1 : streamRef w1 = streamRef w /\ inputContextRef w1 = inputContextRef w
               /\ outputContextRef w1 = outputContextRef w
               /\ log w1 = log w ++ device_calls w)
    by (subst w1; rewrite E; repeat split).
  destruct R1 as (S1 & I1 & O1 & L1).
  split; [now rewrite E|]. split; [exact M0|]. split.
  { rewrite cleanup_when_devices_do_not_throw; [reflexivity|].
    fold w2 in M3, M4, M5. unfold devices_do_not_throw.
    rewrite M3, M4, M5, S1, I1, O1. exact H. }
  split; [subst w1; now rewrite E|].
  unfold called. rewrite L1. unfold device_calls.
  split; [|split; [|split; [|split]]].
  - intros tracks t Hs Ht. rewrite Hs. apply in_or_app. right. apply in_or_app. left.
    apply (in_map (fun t => (TrackStop (track t), Returns)) _ _ Ht).
  - intros ctx Hc. rewrite Hc. apply in_or_app. right. apply in_or_app. right.
    apply in_or_app. left. now left.
  - intros ctx Hc. rewrite Hc. apply in_or_app. right. apply in_or_app. right.
    apply in_or_app. right. now left.
  - intros s o Hs Ho. fold w2 in M1. rewrite M1. apply in_or_app. right.
    subst w1. rewrite E. cbn [fst microtasks]. rewrite Hs, session_calls_app.
    apply in_or_app. right. unfold session_calls. cbn [flat_map]. rewrite Ho. now left.
  - intros c Hc. fold w2 in M1. rewrite M1, L1. apply in_or_app. now left.
Qed.

Lemma cleanup_survives_session_close_witness :
  let w := session_close_throws in
  let w1 := fst (cleanup w) in
  let w2 := fst (run_microtasks w1) in
  snd (cleanup w) = Normal tt
  /\ snd (run_microtasks w1) = Normal tt
  /\ snd (cleanup w2) = Normal tt
  /\ isActive w1 = false
  /\ (forall tracks t, streamRef w = Some tracks -> In t tracks ->
        called (TrackStop (track t)) w1)
  /\ (forall ctx, inputContextRef w = Some ctx -> called InputContextClose w1)
  /\ (forall ctx, outputContextRef w = Some ctx -> called OutputContextClose w1)
  /\ (forall s o, sessionRef w = Some (Fulfilled s) -> session_close s = Some o ->
        In (SessionClose, o) (log w2))
  /\ (forall c, called c w1 -> called c w2).
Proof.
  apply (cleanup_survives_session_close session_close_throws).
  repeat split.
  - intros tracks E. injection E as <-. repeat constructor.
  - intros ctx E. now injection E as <-.
  - intros ctx E. now injection E as <-.
Defined.

Example cleanup_when_session_close_throws :
  log (fst (run_microtasks (fst (cleanup session_close_throws))))
  = [(TrackStop 0, Returns); (TrackStop 1, Returns);
     (InputContextClose, Returns); (OutputContextClose, Returns);
     (SessionClose, Throws)].
Proof. reflexivity. Qed.

End CleanupFacts.

(** ** The time scheduling on doubles *)

Section DoubleFacts.
Import AudioUtils LiveGame LiveGame.Double LiveGame.PlaybackDouble.

Lemma SFcompare_antisym (x y : double) :
  SFcompare y x = option_map CompOpp (SFcompare x y).
Proof.
  destruct x as [[]|[]| |[] m1 e1], y as [[]|[]| |[] m2 e2]; cbn; try reflexivity;
    rewrite (Z.compare_antisym e1 e2); destruct (e1 ?= e2)%Z; cbn; try reflexivity;
    rewrite (Pos.compare_cont_antisym m1 m2 Eq); reflexivity.
Qed.

(** When the clock does not exceed the cursor, the test
    [nextStartTimeRef.current < currentTime] fails. *)
Lemma leb_not_ltb (x y : double) : leb x y = true -> ltb y x = false.
Proof.
  unfold leb, ltb, SFleb, SFltb. rewrite (SFcompare_antisym x y).
  now destruct (SFcompare x y) as [[]|].
Qed.

Lemma schedule_not_behind (now : double) (b : AudioBuffer) (r : Refs) :
  leb now (nextStartTimeRef r) = true ->
  schedule now b r =
    ({| nextStartTimeRef := add (nextStartTimeRef r) (duration b);
        sourcesRef := Playback.Set_add (created r) (sourcesRef r);
        created := S (created r) |},
     [Start (created r) b (nextStartTimeRef r)]).
Proof.
  intro H. unfold schedule. now rewrite (leb_not_ltb _ _ H).
Qed.

Lemma schedule_all_not_behind (l : list (double * AudioBuffer)) (r : Refs) :
  never_behind l (nextStartTimeRef r) ->
  starts (snd (schedule_all l r)) = cursors (nextStartTimeRef r) (durations l)
  /\ nextStartTimeRef (fst (schedule_all l r))
     = fold_left add (durations l) (nextStartTimeRef r).
Proof.
  revert r. induction l as [|[now b] rest IH]; intros r H.
  - split; reflexivity.
  - destruct H as [H1 H2]. cbn [schedule_all].
    rewrite (schedule_not_behind now b r H1).
    specialize (IH {| nextStartTimeRef := add (nextStartTimeRef r) (duration b);
                      sourcesRef := Playback.Set_add (created r) (sourcesRef r);
                      created := S (created r) |} H2).
    cbn [nextStartTimeRef] in IH.
    destruct (schedule_all rest _) as [r2 e2]. cbn [fst snd] in *.
    destruct IH as [IH1 IH2]. split.
    + unfold starts, durations in *. cbn [app map cursors snd]. now rewrite IH1.
    + exact IH2.
Qed.

Lemma rounded_cursors_nth (ds : list double) (c : double) (i : nat) :
  (i < List.length ds)%nat ->
  nth i (cursors c ds) zero = fold_left add (firstn i ds) c.
Proof.
  revert c i. induction ds as [|d rest IH]; intros c i H; [inversion H|].
  destruct i as [|i]; [reflexivity|].
  cbn [cursors nth firstn fold_left]. apply IH. cbn in H. lia.
Qed.

Lemma rounded_cursors_next (ds : list double) (c : double) (i : nat) :
  (S i < List.length ds)%nat ->
  nth (S i) (cursors c ds) zero = add (nth i (cursors c ds) zero) (nth i ds zero).
Proof.
  revert c i. induction ds as [|d rest IH]; intros c i H; [inversion H|].
  destruct i as [|i].
  - destruct rest as [|d' rest]; [cbn in H; lia|]. reflexivity.
  - cbn [cursors nth]. apply IH. cbn in H. lia.
Qed.

(** C1, as stated, fails on the numbers the code computes.  Fragments of 1,
    3 and 1 frames at 24 kHz are scheduled from a cursor of 0 while the
    clock reads 0, so the cursor is never behind.  The second buffer starts
    at d0, the double nearest to 1/24000, and lasts d1, the double nearest
    to 3/24000; the third starts at the double nearest to d0 + d1, which is
    below d0 + d1: before the second has ended, and not at the first start
    plus the sum of the earlier durations; and scheduling the second buffer
    has not advanced the cursor by d1. *)
Lemma third_buffer_starts_before_the_second_ends :
  let scheduled := schedule_all short_fragments at_rest in
  let start i := to_Q (nth i (starts (snd scheduled)) zero) in
  let D i := to_Q (nth i (durations short_fragments) zero) in
  never_behind short_fragments (nextStartTimeRef at_rest)
  /\ start 2%nat < start 1%nat + D 1%nat
  /\ ~ start 2%nat == start 0%nat + (D 0%nat + D 1%nat)
  /\ ~ start 2%nat - start 1%nat == D 1%nat.
Proof.
  cbv zeta. split; [|split; [|split]].
  - vm_compute. auto.
  - vm_compute. reflexivity.
  - vm_compute. discriminate.
  - vm_compute. discriminate.
Qed.

(** C1, as the code has it.  With the cursor never behind the clock, the
    first buffer starts at the cursor, every later buffer starts at the
    double the cursor was set to by its predecessor, which is the rounded
    sum of the predecessor's start and duration, so that buffer i starts at
    the first start with the earlier durations added one by one, each sum
    rounded; and the cursor ends at the first start with all the durations
    added in this way. *)
Theorem schedule_back_to_back_on_doubles
  (l : list (double * AudioBuffer)) (r : Refs) :
  never_behind l (nextStartTimeRef r) ->
  let scheduled := schedule_all l r in
  let start i := nth i (starts (snd scheduled)) zero in
  let D i := nth i (durations l) zero in
  List.length (starts (snd scheduled)) = List.length l
  /\ (forall i, (i < List.length l)%nat ->
        start i = fold_left add (firstn i (durations l)) (nextStartTimeRef r))
  /\ (forall i, (S i < List.length l)%nat -> start (S i) = add (start i) (D i))
  /\ nextStartTimeRef (fst scheduled)
     = fold_left add (durations l) (nextStartTimeRef r).
Proof.
  intros H. cbv zeta.
  destruct (schedule_all_not_behind l r H) as [E1 E2]. rewrite E1.
  assert (L : List.length (durations l) = List.length l)
    by (unfold durations; apply length_map).
  repeat split.
  - rewrite <- L. clear. generalize (nextStartTimeRef r).
    induction (durations l) as [|d ds IH]; intro c; [reflexivity|].
    cbn. now rewrite IH.
  - intros i Hi. apply rounded_cursors_nth. now rewrite L.
  - intros i Hi. apply rounded_cursors_next. now rewrite L.
  - exact E2.
Qed.

Lemma schedule_back_to_back_on_doubles_witness :
  let scheduled := schedule_all three_fragments at_rest in
  let start i := nth i (starts (snd scheduled)) zero in
  let D i := nth i (durations three_fragments) zero in
  List.length (starts (snd scheduled)) = List.length three_fragments
  /\ (forall i, (i < List.length three_fragments)%nat ->
        start i = fold_left add (firstn i (durations three_fragments))
                            (nextStartTimeRef at_rest))
  /\ (forall i, (S i < List.length three_fragments)%nat ->
        start (S i) = add (start i) (D i))
  /\ nextStartTimeRef (fst scheduled)
     = fold_left add (durations three_fragments) (nextStartTimeRef at_rest).
Proof.
  apply (schedule_back_to_back_on_doubles three_fragments at_rest).
  vm_compute. auto.
Defined.

(** Fragments of 1 s, 0.5 s and 2 s start at 0, 1 and 1.5 and leave the
    cursor at 3.5: these sums are exact. *)
Example three_fragments_schedule :
  map (fun x => Qred (to_Q x)) (starts (snd (schedule_all three_fragments at_rest)))
  = [0; 1; 3 # 2]
  /\ Qred (to_Q (nextStartTimeRef (fst (schedule_all three_fragments at_rest))))
     = 7 # 2.
Proof. vm_compute. split; reflexivity. Qed.

End DoubleFacts.

(** ** Callbacks that start while another one waits *)

Section InterleavingFacts.
Import AudioUtils LiveGame LiveGame.Playback LiveGame.Interleaving.





(** A call that resumes before any other call starts does what the
    callback taken as one step does. *)
Lemma arrive_then_resume (now : Q) (msg : LiveServerMessage) (r : Refs) :
  let s := run [Arrive msg; Resume now] (idle r) in
  refs s = fst (onmessage now msg r)
  /\ trace s = snd (onmessage now msg r)
  /\ awaiting s = [].
Proof.
  cbv zeta. rewrite onmessage_unfold.
  unfold run, idle, handle_audio, decode. cbn [fold_left step].
  unfold arrive. cbn [refs awaiting trace].
  destruct (data msg) as [base64Audio|].
  - destruct (truthy base64Audio && outputReady r).
    + destruct (base64ToArrayBuffer base64Audio) as [ab|].
      * unfold resume. cbn [awaiting app decoded message refs trace].
        destruct (decodeAudioData (new_Uint8Array ab) 24000) as [b|].
        -- destruct (schedule now b r) as [r1 e1]. unfold finish. cbn [fst snd].
           destruct (handle_interruption msg r1) as [r2 e2]. now cbn.
        -- unfold finish. cbn [fst snd].
           destruct (handle_interruption msg r) as [r2 e2]. now cbn.
      * unfold finish. cbn [fst snd].
        destruct (handle_interruption msg r) as [r2 e2]. now cbn.
    + unfold finish. cbn [fst snd].
      destruct (handle_interruption msg r) as [r2 e2]. now cbn.
  - unfold finish. cbn [fst snd].
    destruct (handle_interruption msg r) as [r2 e2]. now cbn.
Qed.









End InterleavingFacts.

(** ** The clean-up that runs while [startSession] waits *)

Section StartupFacts.
Import LiveGame LiveGame.Cleanup LiveGame.Startup.

(** What the clean-up finds when [startSession] is waiting for
    [getUserMedia]: the two contexts and nothing else. *)
Lemma unmount_while_awaiting_stream :
  world (unmount (startSession true mounted))
  = {| isActive := false; sessionRef := None; streamRef := None;
       inputContextRef := Some {| close := Returns |};
       outputContextRef := Some {| close := Returns |};
       log := [(InputContextClose, Returns); (OutputContextClose, Returns)];
       microtasks := []; on_fulfilled := 0 |}.
Proof. reflexivity. Qed.

(** Once the stream is stored and no callback waits for the session
    promise, nothing but another clean-up makes a call. *)
Lemma no_call_without_cleanup (later : list event) (c : Component) :
  forallb (fun ev => negb (is_unmount ev)) later = true ->
  awaiting_stream c = false ->
  microtasks (world c) = [] ->
  on_fulfilled (world c) = 0%nat ->
  let c' := run later c in
  streamRef (world c') = streamRef (world c)
  /\ log (world c') = log (world c)
  /\ (sessionRef (world c') = None <-> sessionRef (world c) = None).
Proof.
  revert c. induction later as [|ev later IH]; intros c Hl Ha Hm Hf; cbv zeta.
  - repeat split; auto.
  - cbn [forallb] in Hl. apply andb_prop in Hl. destruct Hl as [Hev Hl].
    unfold run. cbn [fold_left]. fold (run later (step c ev)).
    assert (S : awaiting_stream (step c ev) = false
                /\ microtasks (world (step c ev)) = []
                /\ on_fulfilled (world (step c ev)) = 0%nat
                /\ streamRef (world (step c ev)) = streamRef (world c)
                /\ log (world (step c ev)) = log (world c)
                /\ (sessionRef (world (step c ev)) = None
                    <-> sessionRef (world c) = None)).
    { destruct ev as [|throws tracks| |s]; [discriminate Hev| | |].
      - cbn [step]. unfold stream_granted. rewrite Ha. tauto.
      - cbn [step]. unfold stream_denied. rewrite Ha. tauto.
      - cbn [step]. unfold session_fulfilled.
        destruct (sessionRef (world c)) as [[| |]|] eqn:Es;
          [|rewrite ?Es; tauto..].
        rewrite Hm, Hf. cbn. rewrite ?Es. repeat split; auto; discriminate. }
    destruct S as (Sa & Sm & Sf & Ss & Sl & Sp).
    destruct (IH (step c ev) Hl Sa Sm Sf) as (I1 & I2 & I3).
    rewrite I1, I2, I3. tauto.
Qed.

(** C8 fails on the code.  The component is unmounted while [startSession]
    waits for [getUserMedia], and the permission is granted afterwards.  The
    clean-up has closed the two contexts and found no stream and no
    session.  The stream that arrives is stored and its tracks are never
    stopped; where the browser lets the set-up go on with a closed context,
    the connection is opened and never closed; and whatever follows, short
    of another clean-up, makes no call at all. *)
Theorem unmount_while_awaiting_the_microphone
  (closed_context_throws : bool) (tracks : list MediaStreamTrack)
  (later : list event) :
  forallb (fun ev => negb (is_unmount ev)) later = true ->
  let c := run (Unmount :: StreamGranted closed_context_throws tracks :: later)
               (startSession true mounted) in
  streamRef (world c) = Some tracks
  /\ log (world c) = [(InputContextClose, Returns); (OutputContextClose, Returns)]
  /\ existsb (fun x => releases (fst x)) (log (world c)) = false
  /\ (sessionRef (world c) = None <-> closed_context_throws = true).
Proof.
  intros Hl. cbv zeta. unfold run. cbn [fold_left].
  set (c1 := step (step (startSession true mounted) Unmount)
                  (StreamGranted closed_context_throws tracks)).
  fold (run later c1).
  assert (E : awaiting_stream c1 = false
              /\ microtasks (world c1) = []
              /\ on_fulfilled (world c1) = 0%nat
              /\ streamRef (world c1) = Some tracks
              /\ log (world c1)
                 = [(InputContextClose, Returns); (OutputContextClose, Returns)]
              /\ (sessionRef (world c1) = None <-> closed_context_throws = true)).
  { subst c1. destruct closed_context_throws; cbn; repeat split; auto; discriminate. }
  destruct E as (Ea & Em & Ef & Es & El & Ep).
  destruct (no_call_without_cleanup later c1 Hl Ea Em Ef) as (I1 & I2 & I3).
  rewrite I1, I2, I3, Es, El. repeat split; auto; apply Ep.
Qed.

Lemma unmount_while_awaiting_the_microphone_witness :
  let tracks := [{| track := 0; stop := Returns |}] in
  let later := [SessionFulfilled {| session_close := Some Returns |}; StreamDenied] in
  let c := run (Unmount :: StreamGranted false tracks :: later)
               (startSession true mounted) in
  streamRef (world c) = Some tracks
  /\ log (world c) = [(InputContextClose, Returns); (OutputContextClose, Returns)]
  /\ existsb (fun x => releases (fst x)) (log (world c)) = false
  /\ (sessionRef (world c) = None <-> false = true).
Proof.
  apply (unmount_while_awaiting_the_microphone
           false [{| track := 0; stop := Returns |}]
           [SessionFulfilled {| session_close := Some Returns |}; StreamDenied]).
  reflexivity.
Defined.

(** The same run, evaluated: the connection is established after the
    clean-up, the microphone stays open and the session is never closed. *)
Example unmounted_before_the_stream (s : Session) :
  let tracks := [{| track := 0; stop := Returns |}] in
  world (run [Unmount; StreamGranted false tracks; SessionFulfilled s]
             (startSession true mounted))
  = {| isActive := false; sessionRef := Some (Fulfilled s);
       streamRef := Some tracks;
       inputContextRef := Some {| close := Returns |};
       outputContextRef := Some {| close := Returns |};
       log := [(InputContextClose, Returns); (OutputContextClose, Returns)];
       microtasks := []; on_fulfilled := 0 |}.
Proof. reflexivity. Qed.

(** When the clean-up runs after the set-up, the tracks are stopped and the
    session is closed. *)
Example unmounted_after_the_setup :
  let tracks := [{| track := 0; stop := Returns |}] in
  log (world (run [StreamGranted false tracks; Unmount;
                   SessionFulfilled {| session_close := Some Returns |}]
                  (startSession true mounted)))
  = [(TrackStop 0, Returns); (InputContextClose, Returns);
     (OutputContextClose, Returns); (SessionClose, Returns)].
Proof. reflexivity. Qed.

End StartupFacts.

(** * Further properties *)

(** Linear arithmetic over the rationals, with the quantization step
    written as a fraction. *)
Ltac qsteps :=
  unfold Qdiv in *; change (/ 32768) with (1 # 32768) in *; lra.

(** ** The codec *)

Section CodecMore.
Import Base64 AudioUtils Codec.

Lemma btoa_chars_length_exact s :
  List.length (btoa_chars s) = (4 * ((List.length s + 2) / 3))%nat.
Proof.
  induction s as [|a|a b|a b c l IH] using list_ind3; try reflexivity.
  cbn [btoa_chars List.length]. rewrite IH.
  replace (S (S (S (List.length l))) + 2)%nat with (List.length l + 2 + 1 * 3)%nat by lia.
  rewrite Nat.div_add by lia. lia.
Qed.

Lemma btoa_chars_alphabet s : forallb is_base64_char (btoa_chars s) = true.
Proof.
  rewrite btoa_chars_sextets, forallb_app. apply andb_true_iff. split.
  - pose proof (sextets_bounded s) as Hb.
    induction Hb as [|v l Hv _ IH]; [reflexivity|].
    cbn [map forallb]. unfold is_base64_char at 1.
    now rewrite (b64_index_char _ Hv), IH.
  - destruct (padding_cases s) as [-> | [-> | ->]]; reflexivity.
Qed.

Lemma arrayBufferToBase64_length b :
  List.length (list_ascii_of_string (arrayBufferToBase64 b))
  = (4 * ((List.length b + 2) / 3))%nat.
Proof.
  unfold arrayBufferToBase64, btoa.
  rewrite elements_new_Uint8Array, !list_ascii_of_string_of_list_ascii.
  now rewrite btoa_chars_length_exact, length_map.
Qed.

(** X1. The text [arrayBufferToBase64] makes of n bytes has 4 * ceil(n / 3)
    characters, each a letter, a digit, '+', '/' or '='. *)
Theorem arrayBufferToBase64_text (b : ArrayBuffer) :
  let text := list_ascii_of_string (arrayBufferToBase64 b) in
  List.length text = (4 * ((List.length b + 2) / 3))%nat
  /\ forallb is_base64_char text = true.
Proof.
  cbv zeta. unfold arrayBufferToBase64, btoa.
  rewrite elements_new_Uint8Array, !list_ascii_of_string_of_list_ascii.
  split.
  - now rewrite btoa_chars_length_exact, length_map.
  - apply btoa_chars_alphabet.
Qed.

Lemma strip_padding_keeps c l :
  Ascii.eqb c pad = false -> In c l -> In c (strip_padding l).
Proof.
  intros Hc. induction l as [|x l IH]; [auto|].
  intros [->|Hin]; cbn [strip_padding].
  - rewrite Hc. cbn [andb]. now left.
  - destruct (Ascii.eqb x pad) eqn:Ex; cbn [andb].
    + destruct l as [|d [|e l']].
      * destruct Hin.
      * destruct Hin as [->|[]]. rewrite Hc. right. apply IH. now left.
      * right. now apply IH.
    + right. now apply IH.
Qed.

Lemma indices_rejects c l : In c l -> b64_index c = None -> indices l = None.
Proof.
  intros Hin Hc. induction l as [|x l IH]; [destruct Hin|].
  cbn [indices]. destruct Hin as [->|Hin].
  - now rewrite Hc.
  - rewrite (IH Hin). now destruct (b64_index x).
Qed.

(** X2. [base64ToArrayBuffer] fails on a text that holds a character which is
    neither whitespace, nor of the alphabet, nor '='. *)
Theorem base64ToArrayBuffer_rejects_foreign_character (text : string) (c : ascii) :
  In c (list_ascii_of_string text) ->
  is_ascii_whitespace c = false ->
  is_base64_char c = false ->
  base64ToArrayBuffer text = None.
Proof.
  intros Hin Hws Hch. unfold is_base64_char in Hch.
  destruct (b64_index c) eqn:Hidx; [discriminate|].
  unfold base64ToArrayBuffer, atob, atob_chars.
  set (d := filter _ _).
  assert (Hd : In c d) by (apply filter_In; split; [exact Hin|now rewrite Hws]).
  set (d' := if (N.of_nat (List.length d) mod 4 =? 0)%N then strip_padding d else d).
  assert (Hd' : In c d').
  { subst d'. destruct (_ =? _)%N; [now apply strip_padding_keeps|exact Hd]. }
  destruct (_ =? 1)%N; [reflexivity|].
  now rewrite (indices_rejects c d' Hd' Hidx).
Qed.

Lemma base64ToArrayBuffer_rejects_foreign_character_witness :
  base64ToArrayBuffer "AA!A" = None.
Proof.
  apply (base64ToArrayBuffer_rejects_foreign_character "AA!A" "!"%char).
  - right. right. left. reflexivity.
  - reflexivity.
  - reflexivity.
Defined.

End CodecMore.

Section DecodeMore.
Import AudioUtils Codec.

Lemma Z_of_byte_range b : (0 <= Z_of_byte b <= 255)%Z.
Proof. unfold Z_of_byte. pose proof (Byte.to_N_bounded b). lia. Qed.

Lemma int16_of_bytes_range lo hi : (-32768 <= int16_of_bytes lo hi <= 32767)%Z.
Proof.
  unfold int16_of_bytes.
  pose proof (Z_of_byte_range lo). pose proof (Z_of_byte_range hi).
  destruct (Z.ltb_spec (Z_of_byte lo + 256 * Z_of_byte hi) 32768); lia.
Qed.

Lemma int16_elements_range_aux b :
  Forall (fun v => (-32768 <= v <= 32767)%Z) (int16_elements b)
  /\ forall x, Forall (fun v => (-32768 <= v <= 32767)%Z) (int16_elements (x :: b)).
Proof.
  induction b as [|y b [IH0 IH1]].
  - split; [constructor|intro; constructor].
  - split; [apply IH1|]. intro x. cbn [int16_elements].
    constructor; [apply int16_of_bytes_range|exact IH0].
Qed.

Lemma int16_elements_range b :
  Forall (fun v => (-32768 <= v <= 32767)%Z) (int16_elements b).
Proof. apply int16_elements_range_aux. Qed.

Lemma decodeAudioData_Some data rate audioBuffer :
  decodeAudioData data rate = Some audioBuffer ->
  supported_sample_rate rate = true
  /\ Nat.even (List.length (buffer data)) = true
  /\ List.length (buffer data) <> 0%nat
  /\ audioBuffer
     = {| sampleRate := rate;
          channelData :=
            map (fun v => Fin (inject_Z v / 32768)) (int16_elements (buffer data)) |}.
Proof.
  intro H.
  destruct (supported_sample_rate rate) eqn:Hr;
    [|unfold decodeAudioData in H; rewrite Hr in H; discriminate].
  rewrite (decodeAudioData_spec data rate Hr) in H.
  destruct (Nat.even _) eqn:He; [|discriminate].
  destruct (Nat.eqb_spec (List.length (buffer data)) 0) as [E|E]; [discriminate|].
  cbn in H. injection H as <-. repeat split; auto.
Qed.

(** X3. Every sample [decodeAudioData] produces is a finite number in [-1, 1). *)
Theorem decodeAudioData_samples_in_range
  (data : Uint8Array) (rate : positive) (audioBuffer : AudioBuffer) :
  decodeAudioData data rate = Some audioBuffer ->
  Forall (fun x => exists q, x = Fin q /\ -1 <= q /\ q < 1) (channelData audioBuffer).
Proof.
  intro H. destruct (decodeAudioData_Some _ _ _ H) as (_ & _ & _ & ->).
  cbn [channelData]. apply Forall_map.
  eapply Forall_impl; [|apply int16_elements_range].
  intros v Hv. cbv beta in Hv. exists (inject_Z v / 32768). split; [reflexivity|].
  assert (L : inject_Z (-32768) <= inject_Z v) by (rewrite <- Zle_Qle; lia).
  assert (U : inject_Z v < inject_Z 32768) by (rewrite <- Zlt_Qlt; lia).
  change (inject_Z (-32768)) with (-32768) in L.
  change (inject_Z 32768) with 32768 in U.
  split; qsteps.
Qed.

Lemma decodeAudioData_samples_in_range_witness :
  Forall (fun x => exists q, x = Fin q /\ -1 <= q /\ q < 1)
    [Fin (-32768 # 32768); Fin (32767 # 32768)].
Proof.
  apply (decodeAudioData_samples_in_range
           (new_Uint8Array [x00; x80; xff; x7f]) 24000
           {| sampleRate := 24000;
              channelData := [Fin (-32768 # 32768); Fin (32767 # 32768)] |}).
  reflexivity.
Defined.

(** X4. A decoded buffer has one sample for every two bytes of the buffer under
    the input, and lasts that many samples over the sample rate. *)
Theorem decodeAudioData_duration
  (data : Uint8Array) (rate : positive) (audioBuffer : AudioBuffer) :
  decodeAudioData data rate = Some audioBuffer ->
  (2 * List.length (channelData audioBuffer))%nat = List.length (buffer data)
  /\ duration audioBuffer = (Z.of_nat (List.length (buffer data) / 2) # rate)
  /\ 0 < duration audioBuffer.
Proof.
  intro H. destruct (decodeAudioData_Some _ _ _ H) as (_ & He & Hz & ->).
  apply Nat.even_spec in He. destruct He as [n Hn].
  assert (Hl : List.length (int16_elements (buffer data)) = n)
    by now apply int16_elements_length.
  unfold duration. cbn [channelData sampleRate]. rewrite length_map, Hl, Hn.
  replace (2 * n / 2)%nat with n by (rewrite Nat.mul_comm, Nat.div_mul; lia).
  repeat split. unfold Qlt. cbn. lia.
Qed.

Lemma decodeAudioData_duration_witness :
  let audioBuffer :=
    {| sampleRate := 24000;
       channelData := [Fin (-32768 # 32768); Fin (32767 # 32768)] |} in
  (2 * List.length (channelData audioBuffer))%nat
  = List.length (buffer (new_Uint8Array [x00; x80; xff; x7f]))
  /\ duration audioBuffer
     = (Z.of_nat (List.length (buffer (new_Uint8Array [x00; x80; xff; x7f])) / 2) # 24000)
  /\ 0 < duration audioBuffer.
Proof.
  apply (decodeAudioData_duration (new_Uint8Array [x00; x80; xff; x7f]) 24000).
  reflexivity.
Defined.

End DecodeMore.

Section EncodeMore.
Import AudioUtils Codec.

Lemma Qtrunc_inject_Z z : Qtrunc (inject_Z z) = z.
Proof. unfold Qtrunc. cbn. apply Z.quot_1_r. Qed.

Lemma inject_Z_pred v : inject_Z (v - 1) == inject_Z v - 1.
Proof. unfold Z.sub. rewrite inject_Z_plus. reflexivity. Qed.

Lemma Qtrunc_unique_nonneg q (t : Z) :
  0 <= q -> inject_Z t <= q -> q < inject_Z t + 1 -> Qtrunc q = t.
Proof.
  intros P L U. destruct (Qtrunc_below q P) as [A B].
  assert (H1 : inject_Z t < inject_Z (Qtrunc q + 1))
    by (rewrite inject_Z_plus; change (inject_Z 1) with 1; lra).
  assert (H2 : inject_Z (Qtrunc q) < inject_Z (t + 1))
    by (rewrite inject_Z_plus; change (inject_Z 1) with 1; lra).
  rewrite <- Zlt_Qlt in H1, H2. lia.
Qed.

Lemma Qtrunc_monotone q1 q2 : q1 <= q2 -> (Qtrunc q1 <= Qtrunc q2)%Z.
Proof.
  intro H. destruct (Qlt_le_dec q1 0) as [N1|P1]; destruct (Qlt_le_dec q2 0) as [N2|P2].
  - rewrite !Qtrunc_nonpos by lra. now apply Qceiling_resp_le.
  - destruct (Qtrunc_above q1) as [_ B]; [lra|].
    destruct (Qtrunc_below q2 P2) as [_ D].
    assert (H1 : inject_Z (Qtrunc q1) < inject_Z 1)
      by (change (inject_Z 1) with 1; lra).
    assert (H2 : inject_Z (-1) < inject_Z (Qtrunc q2))
      by (change (inject_Z (-1)) with (-1); lra).
    rewrite <- Zlt_Qlt in H1, H2. lia.
  - lra.
  - rewrite !Qtrunc_nonneg by lra. now apply Qfloor_resp_le.
Qed.

(** The value before truncation. *)
Lemma encodeToPCM16_sample_cases q :
  (q <= -1 /\ encodeToPCM16_sample q = (-32768)%Z)
  \/ (-1 <= q /\ q < 0 /\ encodeToPCM16_sample q = Qtrunc (q * 32768))
  \/ (0 <= q /\ q <= 1 /\ encodeToPCM16_sample q = Qtrunc (q * 32767))
  \/ (1 <= q /\ encodeToPCM16_sample q = 32767%Z).
Proof.
  unfold encodeToPCM16_sample, clamp.
  destruct (Qlt_le_dec q (-1)) as [A|A].
  - left. split; [lra|]. destruct (Qlt_le_dec (-1) 0); [reflexivity|lra].
  - destruct (Qlt_le_dec 1 q) as [B|B].
    + right. right. right. split; [lra|]. destruct (Qlt_le_dec 1 0); [lra|reflexivity].
    + destruct (Qlt_le_dec q 0) as [C|C].
      * right. left. repeat split; auto.
      * right. right. left. repeat split; auto.
Qed.

(** Decoding a 16-bit value and encoding it again gives it back when it is
    zero or negative, and one less when it is positive. *)
Lemma pcm16_sample_of_decoded v :
  (-32768 <= v <= 32767)%Z ->
  pcm16_sample (Fin (inject_Z v / 32768)) = reencoded v.
Proof.
  intro Hv. rewrite pcm16_sample_Fin. unfold reencoded.
  assert (L : inject_Z (-32768) <= inject_Z v) by (rewrite <- Zle_Qle; lia).
  assert (U : inject_Z v <= inject_Z 32767) by (rewrite <- Zle_Qle; lia).
  change (inject_Z (-32768)) with (-32768) in L.
  change (inject_Z 32767) with 32767 in U.
  destruct (Z.ltb_spec 0 v) as [Hp|Hn].
  - assert (P : inject_Z 0 < inject_Z v) by (rewrite <- Zlt_Qlt; lia).
    change (inject_Z 0) with 0 in P.
    destruct (encodeToPCM16_sample_cases (inject_Z v / 32768))
      as [[A _]|[(_ & A & _)|[(_ & _ & ->)|[A _]]]]; try qsteps.
    apply Qtrunc_unique_nonneg.
    + qsteps.
    + rewrite inject_Z_pred. qsteps.
    + rewrite inject_Z_pred. qsteps.
  - assert (P : inject_Z v <= inject_Z 0) by (rewrite <- Zle_Qle; lia).
    change (inject_Z 0) with 0 in P.
    destruct (encodeToPCM16_sample_cases (inject_Z v / 32768))
      as [[A E]|[(_ & A & ->)|[(A & _ & ->)|[A _]]]]; try qsteps.
    + rewrite E.
      assert (H : inject_Z v <= inject_Z (-32768))
        by (change (inject_Z (-32768)) with (-32768); qsteps).
      rewrite <- Zle_Qle in H. lia.
    + rewrite <- (Qtrunc_inject_Z v) at 2. apply Qtrunc_comp. field.
    + rewrite <- (Qtrunc_inject_Z v) at 2. apply Qtrunc_comp.
      assert (inject_Z v == 0) by qsteps.
      setoid_replace (inject_Z v) with 0 by assumption. reflexivity.
Qed.

(** X5. Encoding again what was decoded does not give the bytes back: each
    positive 16-bit value comes out one lower; zero and the negative values
    are kept. *)
Theorem decode_then_encode
  (data : Uint8Array) (rate : positive) (audioBuffer : AudioBuffer) :
  decodeAudioData data rate = Some audioBuffer ->
  new_Int16Array (blob (createPCM16Blob (channelData audioBuffer)))
  = Some (map reencoded (int16_elements (buffer data))).
Proof.
  intro H. destruct (decodeAudioData_Some _ _ _ H) as (_ & _ & _ & ->).
  cbn [channelData createPCM16Blob blob].
  rewrite new_Int16Array_buffer by apply pcm16_samples_in_range.
  f_equal. rewrite map_map. clear H.
  pose proof (int16_elements_range (buffer data)) as R.
  induction R as [|v l Hv _ IH]; [reflexivity|].
  cbn [map]. cbv beta in *. f_equal; [exact (pcm16_sample_of_decoded v Hv)|exact IH].
Qed.

Lemma decode_then_encode_witness :
  new_Int16Array
    (blob (createPCM16Blob
             [Fin (-32768 # 32768); Fin (32767 # 32768); Fin (0 # 32768); Fin (1 # 32768)]))
  = Some (map reencoded
            (int16_elements
               (buffer (new_Uint8Array [x00; x80; xff; x7f; x00; x00; x01; x00])))).
Proof.
  apply (decode_then_encode
           (new_Uint8Array [x00; x80; xff; x7f; x00; x00; x01; x00]) 24000
           {| sampleRate := 24000;
              channelData :=
                [Fin (-32768 # 32768); Fin (32767 # 32768); Fin (0 # 32768);
                 Fin (1 # 32768)] |}).
  reflexivity.
Defined.

Example decode_then_encode_values :
  map reencoded
    (int16_elements (buffer (new_Uint8Array [x00; x80; xff; x7f; x00; x00; x01; x00])))
  = [-32768; 32766; 0; 0]%Z.
Proof. reflexivity. Qed.

(** X6. The encoding keeps the order of the samples: a larger sample never gets
    a smaller 16-bit value. *)
Theorem pcm16_sample_monotone (q1 q2 : Q) :
  q1 <= q2 -> (pcm16_sample (Fin q1) <= pcm16_sample (Fin q2))%Z.
Proof.
  intro H. rewrite !pcm16_sample_Fin.
  destruct (encodeToPCM16_sample_cases q1)
    as [[A1 ->]|[(A1 & B1 & ->)|[(A1 & B1 & ->)|[A1 ->]]]];
    destruct (encodeToPCM16_sample_cases q2)
      as [[A2 E2]|[(A2 & B2 & E2)|[(A2 & B2 & E2)|[A2 E2]]]];
    rewrite E2; try lia; try lra;
    try (apply Qtrunc_monotone; lra);
    try match goal with
        | |- (_ <= Qtrunc ?x)%Z =>
            let T := fresh in
            assert (T : (-32768 <= Qtrunc x <= 32767)%Z)
              by (apply Qtrunc_bounds;
                  [lia
                  |change (inject_Z (-32768)) with (-32768); lra
                  |change (inject_Z 32767) with 32767; lra]);
            lia
        | |- (Qtrunc ?x <= _)%Z =>
            let T := fresh in
            assert (T : (-32768 <= Qtrunc x <= 32767)%Z)
              by (apply Qtrunc_bounds;
                  [lia
                  |change (inject_Z (-32768)) with (-32768); lra
                  |change (inject_Z 32767) with 32767; lra]);
            lia
        end.
  - (* both samples are -1 *)
    rewrite (Qtrunc_comp (q1 * 32768) (-32768)) by lra. reflexivity.
  - (* both samples are 1 *)
    rewrite (Qtrunc_comp (q2 * 32767) 32767) by lra. reflexivity.
Qed.

Lemma pcm16_sample_monotone_witness :
  (pcm16_sample (Fin (-1 # 3)) <= pcm16_sample (Fin (1 # 2)))%Z.
Proof. apply (pcm16_sample_monotone (-1 # 3) (1 # 2)). discriminate. Defined.

End EncodeMore.

Section FrameMore.
Import AudioUtils Codec.

Lemma flat_map_int16_bytes_nth l : forall (i : nat) v,
  nth_error l i = Some v ->
  nth_error (flat_map int16_bytes l) (2 * i) = Some (u8 (v mod 256))
  /\ nth_error (flat_map int16_bytes l) (2 * i + 1) = Some (u8 ((v / 256) mod 256)).
Proof.
  induction l as [|w l IH]; intros [|i] v H; try discriminate.
  - injection H as ->. split; reflexivity.
  - cbn [nth_error] in H. specialize (IH i v H).
    replace (2 * S i)%nat with (S (S (2 * i))) by lia.
    replace (S (S (2 * i)) + 1)%nat with (S (S (2 * i + 1))) by lia.
    exact IH.
Qed.

(** X7. The frame of n samples has 2n bytes and 4 * ceil(2n / 3) characters;
    sample i is in bytes 2i and 2i+1, the low byte first. *)
Theorem createPCM16Blob_layout (float32Data : list float) (i : nat) (x : float) :
  nth_error float32Data i = Some x ->
  let frame := createPCM16Blob float32Data in
  List.length (blob frame) = (2 * List.length float32Data)%nat
  /\ List.length (list_ascii_of_string (base64 frame))
     = (4 * ((2 * List.length float32Data + 2) / 3))%nat
  /\ nth_error (blob frame) (2 * i) = Some (u8 (pcm16_sample x mod 256))
  /\ nth_error (blob frame) (2 * i + 1) = Some (u8 ((pcm16_sample x / 256) mod 256)).
Proof.
  intros H frame. subst frame.
  assert (L : List.length (blob (createPCM16Blob float32Data))
              = (2 * List.length float32Data)%nat).
  { cbn [createPCM16Blob blob]. now rewrite Int16Array_buffer_length, length_map. }
  split; [exact L|]. split.
  - cbn [createPCM16Blob base64 new_Uint8Array buffer].
    rewrite arrayBufferToBase64_length.
    cbn [createPCM16Blob blob] in L. now rewrite L.
  - cbn [createPCM16Blob blob]. unfold Int16Array_buffer.
    apply flat_map_int16_bytes_nth. now apply map_nth_error.
Qed.

Lemma createPCM16Blob_layout_witness :
  let frame := createPCM16Blob [Fin (1 # 2); Fin (-1)] in
  List.length (blob frame) = (2 * 2)%nat
  /\ List.length (list_ascii_of_string (base64 frame)) = (4 * ((2 * 2 + 2) / 3))%nat
  /\ nth_error (blob frame) (2 * 1) = Some (u8 (pcm16_sample (Fin (-1)) mod 256))
  /\ nth_error (blob frame) (2 * 1 + 1)
     = Some (u8 ((pcm16_sample (Fin (-1)) / 256) mod 256)).
Proof.
  apply (createPCM16Blob_layout [Fin (1 # 2); Fin (-1)] 1 (Fin (-1))). reflexivity.
Defined.

(** X8. Only a sample of 1 or more is encoded as 32767, and only a sample of -1
    or less as -32768. *)
Theorem pcm16_sample_full_scale (q : Q) :
  (pcm16_sample (Fin q) =? 32767)%Z = Qle_bool 1 q
  /\ (pcm16_sample (Fin q) =? -32768)%Z = Qle_bool q (-1).
Proof.
  rewrite pcm16_sample_Fin.
  assert (T : forall a b : Q, Qle_bool a b = true <-> a <= b) by apply Qle_bool_iff.
  assert (Lo : forall x, -32768 < x -> x < 0 -> (-32768 < Qtrunc x <= 0)%Z).
  { intros x L U. destruct (Qtrunc_above x) as [A B]; [lra|].
    assert (H1 : inject_Z (-32768) < inject_Z (Qtrunc x))
      by (change (inject_Z (-32768)) with (-32768); lra).
    assert (H2 : inject_Z (Qtrunc x) < inject_Z 1)
      by (change (inject_Z 1) with 1; lra).
    rewrite <- Zlt_Qlt in H1, H2. lia. }
  assert (Hi : forall x, 0 <= x -> x < 32767 -> (0 <= Qtrunc x < 32767)%Z).
  { intros x L U. destruct (Qtrunc_below x L) as [A B].
    assert (H1 : inject_Z (Qtrunc x) < inject_Z 32767)
      by (change (inject_Z 32767) with 32767; lra).
    assert (H2 : inject_Z (-1) < inject_Z (Qtrunc x))
      by (change (inject_Z (-1)) with (-1); lra).
    rewrite <- Zlt_Qlt in H1, H2. lia. }
  destruct (Qle_bool 1 q) eqn:E1; destruct (Qle_bool q (-1)) eqn:E2.
  - apply T in E1. apply T in E2. lra.
  - apply T in E1.
    destruct (encodeToPCM16_sample_cases q)
      as [[A _]|[(_ & A & _)|[(_ & A & ->)|[_ ->]]]]; try lra; [|split; reflexivity].
    rewrite (Qtrunc_comp (q * 32767) 32767) by lra. split; reflexivity.
  - apply T in E2.
    destruct (encodeToPCM16_sample_cases q)
      as [[_ ->]|[(A & _ & ->)|[(A & _ & _)|[A _]]]]; try lra; [split; reflexivity|].
    rewrite (Qtrunc_comp (q * 32768) (-32768)) by lra. split; reflexivity.
  - assert (N1 : q < 1)
      by (destruct (Qlt_le_dec q 1); [assumption|apply T in q0; congruence]).
    assert (N2 : -1 < q)
      by (destruct (Qlt_le_dec (-1) q); [assumption|apply T in q0; congruence]).
    destruct (encodeToPCM16_sample_cases q)
      as [[A _]|[(_ & A & ->)|[(A & _ & ->)|[A _]]]]; try lra.
    + pose proof (Lo (q * 32768) ltac:(lra) ltac:(lra)). split; apply Z.eqb_neq; lia.
    + pose proof (Hi (q * 32767) ltac:(lra) ltac:(lra)). split; apply Z.eqb_neq; lia.
Qed.

End FrameMore.

(** ** The playback *)

Section PlaybackMore.
Import AudioUtils LiveGame LiveGame.Playback Scheduling.

Lemma handle_audio_cases now msg r :
  handle_audio now msg r = (r, [])
  \/ handle_audio now msg r = (r, [LogDecodingError])
  \/ exists audioBuffer, handle_audio now msg r = schedule now audioBuffer r.
Proof.
  unfold handle_audio. destruct (data msg) as [b|]; [|now left].
  destruct (truthy b && outputReady r); [|now left].
  destruct (decode b) as [ab|]; [|right; now left].
  right. right. now exists ab.
Qed.

Lemma schedule_start now b r :
  exists when,
    schedule now b r =
      ({| outputReady := outputReady r;
          nextStartTimeRef := when + duration b;
          sourcesRef := Set_add (created r) (sourcesRef r);
          created := S (created r) |},
       [Start (created r) b when])
    /\ now <= when /\ nextStartTimeRef r <= when.
Proof.
  unfold schedule. destruct (Qlt_le_dec (nextStartTimeRef r) now) as [L|L].
  - exists now. repeat split; lra.
  - exists (nextStartTimeRef r). repeat split; lra.
Qed.

(** X9. No source is ever started in the past, nor before the cursor: the time
    given to [source.start] is at least the reading of the clock and at
    least the cursor the callback found. *)
Theorem start_never_in_the_past
  (now : Q) (msg : LiveServerMessage) (r : Refs)
  (source : nat) (audioBuffer : AudioBuffer) (when : Q) :
  In (Start source audioBuffer when) (snd (onmessage now msg r)) ->
  now <= when /\ nextStartTimeRef r <= when.
Proof.
  rewrite onmessage_unfold. cbn [snd]. intro H. apply in_app_or in H.
  destruct H as [H|H].
  - destruct (handle_audio_cases now msg r) as [E|[E|[ab E]]]; rewrite E in H.
    + destruct H.
    + destruct H as [H|[]]. discriminate H.
    + destruct (schedule_start now ab r) as (w & Es & L1 & L2). rewrite Es in H.
      destruct H as [H|[]]. injection H as _ _ <-. split; assumption.
  - unfold handle_interruption in H. destruct (interrupted msg); [|destruct H].
    destruct H as [H|H]; [discriminate H|].
    apply in_map_iff in H. destruct H as (x & Hx & _). discriminate Hx.
Qed.

Lemma start_never_in_the_past_witness :
  3 <= 3 /\ nextStartTimeRef stalled <= 3.
Proof.
  apply (start_never_in_the_past
           3 {| data := Some "AAA="%string; interrupted := false |} stalled
           8 one_frame 3).
  left. reflexivity.
Defined.

End PlaybackMore.

Section PlaybackInvariants.
Import AudioUtils LiveGame LiveGame.Playback Scheduling.

Lemma handle_audio_cursor now msg r :
  nextStartTimeRef r <= nextStartTimeRef (fst (handle_audio now msg r)).
Proof.
  destruct (handle_audio_cases now msg r) as [E|[E|[ab E]]]; rewrite E; cbn [fst];
    try lra.
  destruct (schedule_start now ab r) as (w & -> & _ & L). cbn [fst nextStartTimeRef].
  pose proof (duration_nonneg ab). lra.
Qed.

(** X11. As long as no message signals an interruption, the cursor never moves
    back, whatever the messages carry and whichever sources end. *)
Theorem cursor_never_moves_back (evs : list event) (r : Refs) :
  forallb without_interruption evs = true ->
  nextStartTimeRef r <= nextStartTimeRef (fst (run evs r)).
Proof.
  revert r. induction evs as [|ev evs IH]; intros r H; cbn [run fst]; [lra|].
  cbn [forallb] in H. apply andb_true_iff in H. destruct H as [Hev Hevs].
  destruct (step ev r) as [r1 e1] eqn:E1.
  specialize (IH r1 Hevs). destruct (run evs r1) as [r2 e2]. cbn [fst] in *.
  assert (L : nextStartTimeRef r <= nextStartTimeRef r1).
  { destruct ev as [now msg|source]; cbn [step] in E1.
    - rewrite onmessage_unfold in E1. injection E1 as <- _.
      cbn [without_interruption] in Hev. apply negb_true_iff in Hev.
      unfold handle_interruption. rewrite Hev. cbn [fst].
      apply handle_audio_cursor.
    - injection E1 as <- _. cbn [onended nextStartTimeRef]. lra. }
  lra.
Qed.

Lemma cursor_never_moves_back_witness :
  nextStartTimeRef stalled
  <= nextStartTimeRef
       (fst (run [Message (1 # 2) (fragment "AAA="); Ended 7; Message 3 (fragment "!")]
               stalled)).
Proof.
  apply (cursor_never_moves_back
           [Message (1 # 2) (fragment "AAA="); Ended 7; Message 3 (fragment "!")]
           stalled).
  reflexivity.
Defined.

Lemma arrayBufferToBase64_truthy b : b <> [] -> truthy (arrayBufferToBase64 b) = true.
Proof.
  intro H. unfold arrayBufferToBase64, Base64.btoa.
  rewrite elements_new_Uint8Array, list_ascii_of_string_of_list_ascii.
  destruct b as [|x [|y [|z b]]]; [contradiction|reflexivity..].
Qed.

(** X12. A fragment whose payload has an odd number of bytes is skipped: the
    callback logs the decoding error and leaves the cursor and the sources
    as they were. *)
Theorem odd_payload_is_skipped (payload : ArrayBuffer) (now : Q) (r : Refs) :
  Nat.odd (List.length payload) = true ->
  outputReady r = true ->
  onmessage now (fragment (arrayBufferToBase64 payload)) r = (r, [LogDecodingError]).
Proof.
  intros Ho Hr. rewrite onmessage_unfold.
  assert (Hne : payload <> []) by (intros ->; discriminate Ho).
  unfold handle_audio. cbn [fragment data interrupted handle_interruption].
  rewrite (arrayBufferToBase64_truthy payload Hne), Hr. cbn [andb].
  unfold decode. rewrite base64_round_trip.
  rewrite (decodeAudioData_spec _ 24000 eq_refl). cbn [new_Uint8Array buffer].
  rewrite <- Nat.negb_odd, Ho. reflexivity.
Qed.

Lemma odd_payload_is_skipped_witness :
  onmessage 3 (fragment (arrayBufferToBase64 [x00; x40; xff])) stalled
  = (stalled, [LogDecodingError]).
Proof.
  apply (odd_payload_is_skipped [x00; x40; xff] 3 stalled); reflexivity.
Defined.



Lemma Set_delete_not_in x s : ~ In x (Set_delete x s).
Proof.
  unfold Set_delete. intro H. apply filter_In in H. destruct H as [_ H].
  now rewrite Nat.eqb_refl in H.
Qed.

Lemma Set_add_inv x y s : In y (Set_add x s) -> y = x \/ In y s.
Proof.
  unfold Set_add. destruct (existsb _ _); [now right|].
  intro H. apply in_app_or in H. destruct H as [H|[H|[]]]; auto.
Qed.

(** X14. A source that has ended is no longer registered: an interruption that
    comes afterwards does not call [stop] on it. *)
Theorem ended_source_is_not_stopped
  (source : nat) (now : Q) (msg : LiveServerMessage) (r : Refs) :
  (source < created r)%nat ->
  ~ In (Stop source) (snd (onmessage now msg (onended source r))).
Proof.
  intros Hlt H. rewrite onmessage_unfold in H. cbn [snd] in H.
  apply in_app_or in H. destruct H as [H|H].
  - destruct (handle_audio_cases now msg (onended source r)) as [E|[E|[ab E]]];
      rewrite E in H.
    + destruct H.
    + destruct H as [H|[]]. discriminate H.
    + unfold schedule in H. destruct H as [H|[]]. discriminate H.
  - unfold handle_interruption in H. destruct (interrupted msg); [|destruct H].
    destruct H as [H|H]; [discriminate H|].
    apply in_map_iff in H. destruct H as (x & Hx & Hin). injection Hx as ->.
    destruct (handle_audio_cases now msg (onended source r)) as [E|[E|[ab E]]];
      rewrite E in Hin; cbn [fst] in Hin.
    + now apply Set_delete_not_in in Hin.
    + now apply Set_delete_not_in in Hin.
    + unfold schedule in Hin. cbn [fst sourcesRef onended created] in Hin.
      apply Set_add_inv in Hin. destruct Hin as [->|Hin]; [lia|].
      now apply Set_delete_not_in in Hin.
Qed.

Lemma ended_source_is_not_stopped_witness :
  ~ In (Stop 7)
      (snd (onmessage 3 {| data := Some "AAA="%string; interrupted := true |}
              (onended 7 stalled))).
Proof.
  apply (ended_source_is_not_stopped
           7 3 {| data := Some "AAA="%string; interrupted := true |} stalled).
  cbn. lia.
Defined.

End PlaybackInvariants.

(** ** The capture *)

Section CaptureMore.
Import AudioUtils LiveGame LiveGame.Capture Muting.

Lemma run_app evs1 evs2 c : run (evs1 ++ evs2) c = run evs2 (run evs1 c).
Proof. unfold run. apply fold_left_app. Qed.

Lemma chunks_while_pending chunks : forall c,
  handler_isMuted c = false ->
  Capture.sessionRef c = Some Pending ->
  let c' := run (map AudioProcess chunks) c in
  handler_isMuted c' = false
  /\ Capture.sessionRef c' = Some Pending
  /\ sent c' = sent c
  /\ waiting c' = waiting c ++ map (fun x => base64 (createPCM16Blob x)) chunks.
Proof.
  induction chunks as [|x chunks IH]; intros c Hm Hp; cbv zeta.
  - cbn. now rewrite app_nil_r.
  - cbn [map].
    change (run (AudioProcess x :: map AudioProcess chunks) c)
      with (run (map AudioProcess chunks) (onaudioprocess x c)).
    assert (E : onaudioprocess x c
                = {| isMuted := isMuted c; handler_isMuted := handler_isMuted c;
                     sessionRef := Capture.sessionRef c;
                     waiting := waiting c ++ [base64 (createPCM16Blob x)];
                     sent := sent c |})
      by (unfold onaudioprocess; rewrite Hm, Hp; reflexivity).
    destruct (IH (onaudioprocess x c)) as (I1 & I2 & I3 & I4);
      [rewrite E; exact Hm|rewrite E; exact Hp|].
    rewrite I1, I2, I3, I4, E. cbn [sent waiting]. now rewrite <- app_assoc.
Qed.

(** X15. The chunks captured while the session promise is pending are not lost:
    when the session opens, their frames are sent, in the order of capture,
    after the frames that were already waiting. *)
Theorem frames_wait_for_the_session (chunks : list (list float)) (c : Component) :
  handler_isMuted c = false ->
  Capture.sessionRef c = Some Pending ->
  let c' := run (map AudioProcess chunks ++ [SessionOpened]) c in
  sent c' = sent c ++ waiting c ++ map (fun x => base64 (createPCM16Blob x)) chunks
  /\ waiting c' = [].
Proof.
  intros Hm Hp. cbv zeta. rewrite run_app.
  destruct (chunks_while_pending chunks c Hm Hp) as (I1 & I2 & I3 & I4).
  cbn [run fold_left step]. unfold session_opened. rewrite I2.
  cbn [sent waiting]. now rewrite I3, I4.
Qed.

Lemma frames_wait_for_the_session_witness :
  let c := run_effect initial in
  let c' := run (map AudioProcess [[Fin (1 # 2)]; [Fin (-1)]] ++ [SessionOpened]) c in
  sent c'
  = sent c ++ waiting c
    ++ map (fun x => base64 (createPCM16Blob x)) [[Fin (1 # 2)]; [Fin (-1)]]
  /\ waiting c' = [].
Proof.
  apply (frames_wait_for_the_session [[Fin (1 # 2)]; [Fin (-1)]] (run_effect initial));
    reflexivity.
Defined.

(** X16. When the effect runs while the mute flag is set, the handler it installs
    sends nothing, and neither unmuting nor the opening of the session
    changes that: no frame is sent until the effect runs again. *)
Theorem handler_created_muted_stays_muted (evs : list event) (c : Component) :
  isMuted c = true ->
  forallb keeps_handler evs = true ->
  sent (run evs (run_effect c)) = sent c
  /\ waiting (run evs (run_effect c)) = [].
Proof.
  intros Hm Hevs.
  assert (G : forall c1, handler_isMuted c1 = true -> waiting c1 = [] ->
              sent (run evs c1) = sent c1 /\ waiting (run evs c1) = []).
  { clear c Hm. induction evs as [|ev evs IH]; intros c1 H1 H2; [now split|].
    cbn [forallb] in Hevs. apply andb_true_iff in Hevs. destruct Hevs as [Hev Hevs].
    change (run (ev :: evs) c1) with (run evs (step ev c1)).
    assert (S1 : handler_isMuted (step ev c1) = true /\ waiting (step ev c1) = []
                 /\ sent (step ev c1) = sent c1).
    { destruct ev; cbn [step]; try discriminate Hev.
      - unfold session_opened. destruct (Capture.sessionRef c1) as [[| |]|];
          cbn; rewrite ?H2, ?app_nil_r; auto.
      - cbn. auto.
      - unfold onaudioprocess. rewrite H1. auto. }
    destruct S1 as (S1 & S2 & S3).
    destruct (IH Hevs (step ev c1) S1 S2) as [I1 I2]. now rewrite I1, I2, S3. }
  apply (G (run_effect c)); [exact Hm|reflexivity].
Qed.

Lemma handler_created_muted_stays_muted_witness :
  let c := toggleMute initial in
  let evs := [SessionOpened; ToggleMute; AudioProcess [Fin (1 # 2)]] in
  sent (run evs (run_effect c)) = sent c
  /\ waiting (run evs (run_effect c)) = [].
Proof.
  apply (handler_created_muted_stays_muted
           [SessionOpened; ToggleMute; AudioProcess [Fin (1 # 2)]] (toggleMute initial));
    reflexivity.
Defined.

End CaptureMore.

(** ** The clean-up *)

Section CleanupMore.
Import LiveGame LiveGame.Cleanup.

(** X17. The clean-up does not clear the references, so running it again makes
    every call on the tracks and on the contexts a second time. *)
Theorem cleanup_twice_repeats_the_calls (w : World) :
  devices_do_not_throw w ->
  let w1 := fst (cleanup w) in
  let w2 := fst (cleanup w1) in
  streamRef w1 = streamRef w
  /\ inputContextRef w1 = inputContextRef w
  /\ outputContextRef w1 = outputContextRef w
  /\ Cleanup.sessionRef w1 = Cleanup.sessionRef w
  /\ log w2 = log w ++ device_calls w ++ device_calls w.
Proof.
  intros H w1 w2.
  pose proof (cleanup_when_devices_do_not_throw w H) as E.
  assert (R : streamRef w1 = streamRef w /\ inputContextRef w1 = inputContextRef w
              /\ outputContextRef w1 = outputContextRef w
              /\ Cleanup.sessionRef w1 = Cleanup.sessionRef w
              /\ log w1 = log w ++ device_calls w)
    by (subst w1; rewrite E; repeat split).
  destruct R as (S1 & I1 & O1 & P1 & L1).
  assert (H1 : devices_do_not_throw w1)
    by (unfold devices_do_not_throw; rewrite S1, I1, O1; exact H).
  repeat (split; [assumption|]).
  subst w2. rewrite (cleanup_when_devices_do_not_throw w1 H1). cbn [fst log].
  rewrite L1. unfold device_calls. rewrite S1, I1, O1. now rewrite <- app_assoc.
Qed.

Lemma cleanup_twice_repeats_the_calls_witness :
  let w := session_close_throws in
  let w1 := fst (cleanup w) in
  let w2 := fst (cleanup w1) in
  streamRef w1 = streamRef w
  /\ inputContextRef w1 = inputContextRef w
  /\ outputContextRef w1 = outputContextRef w
  /\ Cleanup.sessionRef w1 = Cleanup.sessionRef w
  /\ log w2 = log w ++ device_calls w ++ device_calls w.
Proof.
  apply (cleanup_twice_repeats_the_calls session_close_throws).
  repeat split.
  - intros tracks E. injection E as <-. repeat constructor.
  - intros ctx E. now injection E as <-.
  - intros ctx E. now injection E as <-.
Defined.

End CleanupMore.

(** ** The status of the live session *)

Section StatusFacts.
Import Status.

(** X19. Once the clean-up has run, the callbacks of the connection no longer
    change the status, in whatever number and order they come. *)
Theorem callbacks_after_cleanup_keep_the_status (evs : list event) (x : Session) :
  forallb is_callback evs = true ->
  current (run evs (cleanup x)) = current x
  /\ isActive (run evs (cleanup x)) = false.
Proof.
  intro H.
  assert (G : forall y, isActive y = false ->
              current (run evs y) = current y /\ isActive (run evs y) = false).
  { induction evs as [|ev evs IH]; intros y Hy; [now split|].
    cbn [forallb] in H. apply andb_true_iff in H. destruct H as [Hev Hevs].
    change (run (ev :: evs) y) with (run evs (step ev y)).
    assert (E : step ev y = y).
    { destruct ev; try discriminate Hev; cbn [step];
        unfold onopen, onclose, onerror; now rewrite Hy. }
    rewrite E. now apply IH. }
  apply (G (cleanup x)). reflexivity.
Qed.

Lemma callbacks_after_cleanup_keep_the_status_witness :
  current (run [Open; Error; Close] (cleanup initial)) = current initial
  /\ isActive (run [Open; Error; Close] (cleanup initial)) = false.
Proof.
  apply (callbacks_after_cleanup_keep_the_status [Open; Error; Close] initial).
  reflexivity.
Defined.

(** X20. Before the clean-up, the status is the one the last event asked for,
    whatever came before: an [onopen] that comes after an error or a close
    makes the session 'active' again. *)
Theorem status_follows_the_last_event (evs : list event) (ev : event) (x : Session) :
  isActive x = true ->
  forallb (fun e => negb (is_cleanup e)) (evs ++ [ev]) = true ->
  current (run (evs ++ [ev]) x) = status_of ev (current x).
Proof.
  intros Hx H. unfold run. rewrite fold_left_app. cbn [fold_left].
  rewrite forallb_app in H. apply andb_true_iff in H. destruct H as [Hevs Hev].
  assert (G : isActive (fold_left (fun x ev => step ev x) evs x) = true).
  { clear Hev. revert x Hx. induction evs as [|e evs IH]; intros x Hx; [exact Hx|].
    cbn [forallb] in Hevs. apply andb_true_iff in Hevs. destruct Hevs as [He Hevs].
    cbn [fold_left]. apply (IH Hevs).
    destruct e; try discriminate He; cbn [step];
      unfold onopen, onclose, onerror, setup_failed; rewrite ?Hx; exact Hx. }
  cbn [forallb] in Hev. rewrite andb_true_r in Hev.
  destruct ev; try discriminate Hev; cbn [step status_of];
    unfold onopen, onclose, onerror, setup_failed; rewrite ?G; reflexivity.
Qed.

Lemma status_follows_the_last_event_witness :
  current (run ([Open; Error] ++ [Open]) initial) = status_of Open (current initial).
Proof.
  apply (status_follows_the_last_event [Open; Error] Open initial); reflexivity.
Defined.

End StatusFacts.

(** ** The standard game *)

Section StandardGameFacts.
Import StandardGame.
Local Open Scope string_scope.

Lemma playQuestionAudio_state questions g :
  currentIndex (playQuestionAudio questions g) = currentIndex g
  /\ isAnswered (playQuestionAudio questions g) = isAnswered g
  /\ score (playQuestionAudio questions g) = score g
  /\ completed (playQuestionAudio questions g) = completed g.
Proof.
  unfold playQuestionAudio. destruct (currentQuestion questions g); repeat split.
Qed.

Lemma step_well_formed questions ev g :
  well_formed questions g ->
  exists g1, step questions ev g = Some g1 /\ well_formed questions g1.
Proof.
  intros (Hi & Hs & Hc). destruct ev as [choice|]; cbn [step].
  - unfold handleOptionSelect. destruct (isAnswered g) eqn:Ha.
    + exists g. split; [reflexivity|]. unfold well_formed. now rewrite Ha.
    + unfold currentQuestion.
      destruct (nth_error questions (currentIndex g)) as [q|] eqn:Eq;
        [|apply nth_error_None in Eq; lia].
      destruct (isCorrect q choice); eexists; (split; [reflexivity|]);
        unfold well_formed; cbn; repeat split; auto; lia.
  - destruct (isAnswered g) eqn:Ha.
    + exists (handleNext questions g). split; [reflexivity|].
      unfold handleNext. destruct (Nat.ltb_spec (S (currentIndex g)) (List.length questions)).
      * unfold well_formed.
        destruct (playQuestionAudio_state questions
                    {| currentIndex := currentIndex g + 1; selectedOption := None;
                       isAnswered := false; score := score g; feedback := EmptyString;
                       spoken := spoken g; completed := completed g |})
          as (-> & -> & -> & ->).
        cbn. repeat split; auto; lia.
      * unfold well_formed. cbn. rewrite Ha. repeat split; auto.
        apply Forall_app. split; [exact Hc|]. repeat constructor. lia.
    + exists g. split; [reflexivity|]. unfold well_formed. now rewrite Ha.
Qed.

Lemma mount_well_formed questions : questions <> [] -> well_formed questions (mount questions).
Proof.
  intro H. unfold mount, well_formed.
  match goal with
  | |- context [playQuestionAudio questions ?g] =>
      destruct (playQuestionAudio_state questions g) as (-> & -> & -> & ->)
  end.
  cbn. destruct questions; [contradiction|]. cbn. repeat split; auto; lia.
Qed.

(** X21. With at least one question, no sequence of clicks makes a handler read
    a question that is not there; the index stays inside the list, the score
    is at most the number of questions answered so far, and every score
    given to [onComplete] is at most the number of questions. *)
Theorem standard_game_invariant (questions : list TriviaQuestion) (evs : list event) :
  questions <> [] ->
  exists g,
    run questions evs (mount questions) = Some g
    /\ (currentIndex g < List.length questions)%nat
    /\ (score g <= currentIndex g + (if isAnswered g then 1 else 0))%nat
    /\ Forall (fun s => (s <= List.length questions)%nat) (completed g).
Proof.
  intro H. pose proof (mount_well_formed questions H) as W.
  revert W. generalize (mount questions).
  induction evs as [|ev evs IH]; intros g W.
  - exists g. split; [reflexivity|exact W].
  - destruct (step_well_formed questions ev g W) as (g1 & E & W1).
    cbn [run]. rewrite E. apply (IH g1 W1).
Qed.

Lemma standard_game_invariant_witness :
  let questions :=
    [{| question := "2 + 2 ?"; options := ["3"; "4"]; correctAnswer := "4";
        explanation := "Arithmetic." |}] in
  exists g,
    run questions [Select "4"; Select "3"; Next; Next] (mount questions) = Some g
    /\ (currentIndex g < List.length questions)%nat
    /\ (score g <= currentIndex g + (if isAnswered g then 1 else 0))%nat
    /\ Forall (fun s => (s <= List.length questions)%nat) (completed g).
Proof.
  apply (standard_game_invariant
           [{| question := "2 + 2 ?"; options := ["3"; "4"]; correctAnswer := "4";
               explanation := "Arithmetic." |}]
           [Select "4"; Select "3"; Next; Next]).
  discriminate.
Defined.

(** Answering the questions that remain, from a question not yet answered. *)
Lemma play_through_from (before : list TriviaQuestion) :
  forall (remaining : list TriviaQuestion) (choices : list string) (g : Game),
  remaining <> [] ->
  List.length choices = List.length remaining ->
  currentIndex g = List.length before ->
  isAnswered g = false ->
  exists g',
    run (before ++ remaining)%list (play_through choices) g = Some g'
    /\ completed g' = (completed g ++ [(score g + correct_choices remaining choices)%nat])%list.
Proof.
  intros remaining. revert before.
  induction remaining as [|q remaining IH]; intros before choices g Hne Hl Hi Ha;
    [contradiction|].
  destruct choices as [|choice choices]; [discriminate Hl|].
  cbn [play_through flat_map app run step].
  assert (Hq : nth_error (before ++ q :: remaining) (currentIndex g) = Some q).
  { rewrite Hi, nth_error_app2 by lia. now rewrite Nat.sub_diag. }
  unfold handleOptionSelect. rewrite Ha. unfold currentQuestion. rewrite Hq.
  assert (E : exists g2,
            (if isCorrect q choice
             then Some (playAudio ("That is correct! " ++ explanation q)
                          {| currentIndex := currentIndex g; selectedOption := Some choice;
                             isAnswered := true; score := score g + 1;
                             feedback := "Correct!"; spoken := spoken g;
                             completed := completed g |})
             else Some (playAudio ("Sorry, that's wrong. The answer is "
                                   ++ correctAnswer q ++ ". " ++ explanation q)
                          {| currentIndex := currentIndex g; selectedOption := Some choice;
                             isAnswered := true; score := score g;
                             feedback := "Incorrect."; spoken := spoken g;
                             completed := completed g |})) = Some g2
            /\ currentIndex g2 = currentIndex g /\ isAnswered g2 = true
            /\ score g2 = (score g + if isCorrect q choice then 1 else 0)%nat
            /\ completed g2 = completed g).
  { destruct (isCorrect q choice); eexists; (split; [reflexivity|]); cbn;
      repeat split; lia. }
  destruct E as (g2 & -> & I2 & A2 & S2 & C2).
  rewrite A2. unfold handleNext.
  assert (Hc : correct_choices (q :: remaining) (choice :: choices)
               = ((if isCorrect q choice then 1 else 0)
                  + correct_choices remaining choices)%nat).
  { unfold correct_choices. cbn [combine filter fst snd].
    destruct (isCorrect q choice); reflexivity. }
  destruct remaining as [|q' remaining].
  - destruct choices; [|discriminate Hl]. cbn [play_through flat_map run].
    assert (Hb : (S (currentIndex g2) <? List.length (before ++ [q])%list)%nat = false)
      by (apply Nat.ltb_ge; rewrite I2, Hi, length_app; cbn; lia).
    rewrite Hb. eexists. split; [reflexivity|]. cbn [completed].
    rewrite C2, S2, Hc. unfold correct_choices. cbn [combine filter List.length].
    now rewrite Nat.add_0_r.
  - assert (Hb : (S (currentIndex g2)
                  <? List.length (before ++ q :: q' :: remaining)%list)%nat = true)
      by (apply Nat.ltb_lt; rewrite I2, Hi, length_app; cbn; lia).
    rewrite Hb.
    match goal with
    | |- context [playQuestionAudio ?qs ?g0] =>
        destruct (playQuestionAudio_state qs g0) as (P1 & P2 & P3 & P4);
        set (g3 := playQuestionAudio qs g0) in *
    end.
    cbn [currentIndex isAnswered score completed] in P1, P2, P3, P4.
    replace (before ++ q :: q' :: remaining)%list
      with ((before ++ [q]) ++ q' :: remaining)%list by now rewrite <- app_assoc.
    destruct (IH (before ++ [q])%list choices g3) as (g' & R & C).
    + discriminate.
    + cbn [List.length] in Hl. cbn [List.length]. lia.
    + rewrite P1, I2, Hi, length_app. cbn. lia.
    + exact P2.
    + fold (play_through choices). exists g'. split; [exact R|].
      rewrite C, P4, P3, C2, S2, Hc. do 2 f_equal. lia.
Qed.

(** X22. Answering every question in turn and clicking on, from the first
    question to "Finish Game", calls [onComplete] once, with the number of
    choices that were correct. *)
Theorem play_through_reports_the_score
  (questions : list TriviaQuestion) (choices : list string) :
  questions <> [] ->
  List.length choices = List.length questions ->
  exists g,
    run questions (play_through choices) (mount questions) = Some g
    /\ completed g = [correct_choices questions choices].
Proof.
  intros Hne Hl.
  unfold mount.
  match goal with
  | |- context [playQuestionAudio questions ?g0] =>
      destruct (playQuestionAudio_state questions g0) as (P1 & P2 & P3 & P4);
      set (g := playQuestionAudio questions g0) in *
  end.
  cbn [currentIndex isAnswered score completed] in P1, P2, P3, P4.
  destruct (play_through_from [] questions choices g Hne Hl P1 P2) as (g' & R & C).
  exists g'. split; [exact R|]. now rewrite C, P4, P3.
Qed.

Lemma play_through_reports_the_score_witness :
  let questions :=
    [{| question := "2 + 2 ?"; options := ["3"; "4"]; correctAnswer := "4";
        explanation := "Arithmetic." |};
     {| question := "Capital of France ?"; options := ["A. Paris"; "B. Rome"];
        correctAnswer := "A. Paris"; explanation := "Geography." |}] in
  exists g,
    run questions (play_through ["4"; "B. Rome"]) (mount questions) = Some g
    /\ completed g = [correct_choices questions ["4"; "B. Rome"]].
Proof.
  apply (play_through_reports_the_score
           [{| question := "2 + 2 ?"; options := ["3"; "4"]; correctAnswer := "4";
               explanation := "Arithmetic." |};
            {| question := "Capital of France ?"; options := ["A. Paris"; "B. Rome"];
               correctAnswer := "A. Paris"; explanation := "Geography." |}]
           ["4"; "B. Rome"]).
  - discriminate.
  - reflexivity.
Defined.

(** X23. A choice of one character that only begins the correct answer earns
    the point, and its button is shown in red, as a wrong answer is. *)
Theorem one_letter_answer_scores_but_shows_red
  (questions : list TriviaQuestion) (q : TriviaQuestion) (choice : string) (g : Game) :
  currentQuestion questions g = Some q ->
  isAnswered g = false ->
  String.length choice = 1%nat ->
  String.prefix choice (correctAnswer q) = true ->
  String.eqb choice (correctAnswer q) = false ->
  exists g',
    handleOptionSelect questions choice g = Some g'
    /\ score g' = (score g + 1)%nat
    /\ btnClass q g' choice = Red.
Proof.
  intros Hq Ha Hl Hp Hne. unfold handleOptionSelect. rewrite Ha, Hq.
  unfold isCorrect. rewrite Hne, Hl, Hp. cbn [orb andb Nat.eqb].
  eexists. split; [reflexivity|]. split; [reflexivity|].
  unfold btnClass. cbn [playAudio isAnswered selectedOption].
  now rewrite Hne, String.eqb_refl.
Qed.

Lemma one_letter_answer_scores_but_shows_red_witness :
  let q := {| question := "Capital of France ?"; options := ["A"; "B"];
              correctAnswer := "A. Paris"; explanation := "Geography." |} in
  exists g',
    handleOptionSelect [q] "A" (mount [q]) = Some g'
    /\ score g' = (score (mount [q]) + 1)%nat
    /\ btnClass q g' "A" = Red.
Proof.
  apply (one_letter_answer_scores_but_shows_red
           [{| question := "Capital of France ?"; options := ["A"; "B"];
               correctAnswer := "A. Paris"; explanation := "Geography." |}]
           {| question := "Capital of France ?"; options := ["A"; "B"];
              correctAnswer := "A. Paris"; explanation := "Geography." |}
           "A"
           (mount [{| question := "Capital of France ?"; options := ["A"; "B"];
                      correctAnswer := "A. Paris"; explanation := "Geography." |}]));
    reflexivity.
Defined.

End StandardGameFacts.

(** ** The set-up screen and the application *)

Section AppFacts.
Import JsString App.

Lemma drop_whitespace_nil s : drop_whitespace s = [] <-> forallb is_whitespace s = true.
Proof.
  induction s as [|c s IH]; cbn [drop_whitespace forallb]; [tauto|].
  destruct (is_whitespace c); cbn [andb]; [exact IH|].
  split; discriminate.
Qed.

Lemma drop_whitespace_all s :
  forallb is_whitespace (drop_whitespace s) = forallb is_whitespace s.
Proof.
  induction s as [|c s IH]; [reflexivity|]. cbn [drop_whitespace].
  destruct (is_whitespace c) eqn:E; cbn [forallb]; rewrite ?E; [exact IH|reflexivity].
Qed.

Lemma forallb_rev {A} (f : A -> bool) l : forallb f (rev l) = forallb f l.
Proof.
  induction l as [|x l IH]; [reflexivity|].
  cbn [rev forallb]. rewrite forallb_app, IH. cbn [forallb].
  rewrite andb_true_r. apply andb_comm.
Qed.

Lemma trim_blank s : truthy (trim s) = negb (forallb is_whitespace s).
Proof.
  unfold trim.
  destruct (forallb is_whitespace s) eqn:E.
  - apply drop_whitespace_nil in E. rewrite E. reflexivity.
  - cbn [negb].
    destruct (rev (drop_whitespace (rev (drop_whitespace s)))) as [|c l] eqn:R;
      [|reflexivity].
    apply (f_equal (@rev N)) in R. rewrite rev_involutive in R. cbn [rev] in R.
    apply drop_whitespace_nil in R.
    rewrite forallb_rev, drop_whitespace_all in R. congruence.
Qed.

(** X24. [handleStart] starts a game exactly when the topic has a character that
    is not white space, and gives the topic as it was typed, not trimmed,
    with the personality and the mode chosen. *)
Theorem handleStart_needs_a_topic (s : Setup) :
  handleStart s =
    if forallb is_whitespace (setup_topic s) then None
    else Some {| topic := setup_topic s; personality := setup_personality s;
                 game := setup_mode s |}.
Proof.
  unfold handleStart. rewrite trim_blank.
  now destruct (forallb is_whitespace (setup_topic s)).
Qed.

Example handleStart_blank_and_padded :
  handleStart {| setup_topic := [32; 9; 160; 12288]%N; setup_personality := ROBOT;
                 setup_mode := standard |} = None
  /\ handleStart {| setup_topic := [32; 67; 97; 116; 115; 32]%N;
                    setup_personality := ROBOT; setup_mode := standard |}
     = Some {| topic := [32; 67; 97; 116; 115; 32]%N; personality := ROBOT;
               game := standard |}
  /\ handleStart setup_initial = None.
Proof. repeat split. Qed.

Lemma step_screen_invariant ev a : screen_invariant a -> screen_invariant (step ev a).
Proof.
  unfold screen_invariant. intro H.
  destruct a as [m c q s f e p]. cbn [gameMode config questions sources finalScore pending] in H.
  destruct ev as [newConfig|qs srcs| |score| |]; destruct m; cbn [step gameMode];
    try exact H;
    unfold handleStartGame, generated, generation_failed, handleGameComplete, resetGame;
    cbn [gameMode config questions sources finalScore pending] in *.
  all: try (destruct H as (H1 & H2 & H3 & H4); subst; cbn; now repeat split).
  all: try (destruct H as (H1 & H2 & H3 & H4 & H5); subst;
            destruct c as [c|]; [|contradiction];
            try (destruct (game c) eqn:G; cbn; repeat split; eauto);
            cbn; now repeat split).
  all: try (destruct H as ((c0 & -> & G) & H2 & H3); subst; cbn;
            repeat split; eauto; try (exists c0; split; [reflexivity|]; intro; auto;
            congruence)).
  all: try (destruct H as ((c0 & -> & G) & H3); subst; cbn; repeat split; eauto).
Qed.

(** X25. Whatever happens, in whatever order: the set-up screen is always
    reached with no questions, no sources and a score of 0; a game screen is
    shown only with a configuration of its own mode; and the results of a
    live game carry the score 0. *)
Theorem app_screen_invariant (evs : list event) :
  screen_invariant (run evs initial).
Proof.
  assert (G : forall a, screen_invariant a -> screen_invariant (run evs a)).
  { induction evs as [|ev evs IH]; intros a H; [exact H|].
    change (run (ev :: evs) a) with (run evs (step ev a)).
    apply IH, step_screen_invariant, H. }
  apply G. unfold screen_invariant. cbn. repeat split.
Qed.

End AppFacts.

(** ** The text given to JSON.parse *)

Section SanitizeFacts.
Import JsString GeminiService.
Local Open Scope N_scope.

Lemma starts_with_before_newline pattern : forall s1 s2,
  ~ In 10 pattern ->
  starts_with pattern (s1 ++ 10 :: s2) = true -> starts_with pattern s1 = true.
Proof.
  induction pattern as [|p pattern IH]; intros s1 s2 Hn H; [reflexivity|].
  destruct s1 as [|c s1]; cbn [app starts_with] in *.
  - apply andb_true_iff in H. destruct H as [H _]. apply N.eqb_eq in H.
    exfalso. apply Hn. now left.
  - apply andb_true_iff in H. destruct H as [H1 H2]. rewrite H1. cbn [andb].
    apply (IH s1 s2); [|exact H2]. intro Hin. apply Hn. now right.
Qed.

(** A text with no occurrence at a line start is left as it is. *)
Lemma remove_nothing pattern : forall s at_start,
  line_starts_free pattern at_start s = true ->
  remove_at_line_starts pattern at_start 0 s = s.
Proof.
  induction s as [|c s IH]; intros a H; [reflexivity|].
  cbn [line_starts_free] in H. apply andb_true_iff in H. destruct H as [H1 H2].
  cbn [remove_at_line_starts]. apply negb_true_iff in H1. rewrite H1.
  now rewrite (IH _ H2).
Qed.

(** The same, up to the end of a line. *)
Lemma remove_up_to_newline pattern : forall s1 s2 at_start,
  pattern <> [] ->
  ~ In 10 pattern ->
  line_starts_free pattern at_start s1 = true ->
  remove_at_line_starts pattern at_start 0 (s1 ++ 10 :: s2)
  = s1 ++ 10 :: remove_at_line_starts pattern true 0 s2.
Proof.
  induction s1 as [|c s1 IH]; intros s2 a Hp Hn H.
  - cbn [app remove_at_line_starts].
    destruct (a && starts_with pattern (10 :: s2)) eqn:E; [|reflexivity].
    apply andb_true_iff in E. destruct E as [_ E].
    apply (starts_with_before_newline pattern [] s2 Hn) in E.
    destruct pattern as [|p pattern]; [contradiction|discriminate E].
  - cbn [line_starts_free] in H. apply andb_true_iff in H. destruct H as [H1 H2].
    apply negb_true_iff in H1. cbn [app remove_at_line_starts].
    destruct (a && starts_with pattern (c :: s1 ++ 10 :: s2)) eqn:E.
    + apply andb_true_iff in E. destruct E as [Ea E].
      apply (starts_with_before_newline pattern (c :: s1) s2 Hn) in E.
      rewrite Ea, E in H1. discriminate H1.
    + now rewrite (IH s2 _ Hp Hn H2).
Qed.

Lemma starts_with_fence_json s : starts_with fence_json s = true -> starts_with fence s = true.
Proof.
  unfold fence_json, fence.
  destruct s as [|a [|b [|c s]]]; cbn [starts_with]; rewrite ?andb_false_r;
    try discriminate.
  intro H.
  apply andb_true_iff in H. destruct H as [H1 H].
  apply andb_true_iff in H. destruct H as [H2 H].
  apply andb_true_iff in H. destruct H as [H3 _].
  now rewrite H1, H2, H3.
Qed.

Lemma line_starts_free_fence_json : forall s at_start,
  line_starts_free fence at_start s = true ->
  line_starts_free fence_json at_start s = true.
Proof.
  induction s as [|c s IH]; intros a H; [reflexivity|].
  cbn [line_starts_free] in *. apply andb_true_iff in H. destruct H as [H1 H2].
  apply andb_true_iff. split; [|now apply IH].
  apply negb_true_iff in H1. apply negb_true_iff.
  destruct a; [|reflexivity]. cbn [andb] in *.
  destruct (starts_with fence_json (c :: s)) eqn:E; [|reflexivity].
  apply starts_with_fence_json in E. congruence.
Qed.

Lemma drop_whitespace_app_newline s :
  drop_whitespace (s ++ [10]) =
    match drop_whitespace s with
    | [] => []
    | l => l ++ [10]
    end.
Proof.
  induction s as [|c s IH]; [reflexivity|].
  cbn [app drop_whitespace]. destruct (is_whitespace c); [exact IH|reflexivity].
Qed.

Lemma trim_between_newlines s : trim (10 :: s ++ [10]) = trim s.
Proof.
  unfold trim. change (drop_whitespace (10 :: s ++ [10])) with (drop_whitespace (s ++ [10])).
  rewrite drop_whitespace_app_newline.
  destruct (drop_whitespace s) as [|c l]; [reflexivity|].
  rewrite rev_app_distr. reflexivity.
Qed.

(** X26. A text in which no line begins with "```" is only trimmed. *)
Theorem sanitize_plain_text (text : jsstring) :
  line_starts_free fence true text = true ->
  sanitize text = trim text.
Proof.
  intro H. unfold sanitize.
  rewrite (remove_nothing fence_json text true (line_starts_free_fence_json text true H)).
  now rewrite (remove_nothing fence text true H).
Qed.

Lemma sanitize_plain_text_witness :
  sanitize [32; 91; 96; 96; 96; 93; 10] = trim [32; 91; 96; 96; 96; 93; 10].
Proof. apply (sanitize_plain_text [32; 91; 96; 96; 96; 93; 10]). reflexivity. Defined.

(** X27. An answer wrapped in a fence, "```json" on the first line and "```" on
    the last, comes out as its body, trimmed, when no line of the body
    begins with "```". *)
Theorem sanitize_unwraps_a_fenced_answer (body : jsstring) :
  line_starts_free fence true body = true ->
  sanitize (fence_json ++ 10 :: body ++ 10 :: fence) = trim body.
Proof.
  intro H. unfold sanitize.
  assert (N1 : ~ In 10 fence_json)
    by (cbn; intros [E|[E|[E|[E|[E|[E|[E|[]]]]]]]]; discriminate E).
  assert (N2 : ~ In 10 fence) by (cbn; intros [E|[E|[E|[]]]]; discriminate E).
  assert (P1 : remove_at_line_starts fence_json true 0
                 (fence_json ++ 10 :: body ++ 10 :: fence)
               = 10 :: body ++ 10 :: fence).
  { change (remove_at_line_starts fence_json true 0
              (fence_json ++ 10 :: body ++ 10 :: fence))
      with (10 :: remove_at_line_starts fence_json true 0 (body ++ 10 :: fence)).
    now rewrite (remove_up_to_newline fence_json body fence true
                   ltac:(discriminate) N1 (line_starts_free_fence_json body true H)). }
  rewrite P1.
  change (remove_at_line_starts fence true 0 (10 :: body ++ 10 :: fence))
    with (10 :: remove_at_line_starts fence true 0 (body ++ 10 :: fence)).
  rewrite (remove_up_to_newline fence body fence true ltac:(discriminate) N2 H).
  change (remove_at_line_starts fence true 0 fence) with (@nil N).
  apply trim_between_newlines.
Qed.

Lemma sanitize_unwraps_a_fenced_answer_witness :
  sanitize (fence_json ++ 10 :: [91; 93] ++ 10 :: fence) = trim [91; 93].
Proof. apply (sanitize_unwraps_a_fenced_answer [91; 93]). reflexivity. Defined.

End SanitizeFacts.
